(** * Titan RT teaching tool: the geo-referenced spectral lookup pipeline

    A shallow embedding of the JavaScript sources

    - [utils/geoCubeLoader.js]  (parseGeoCube, getGeoValue, extractGeoValues),
    - [utils/dataLoader.js]     (sampleData),
    - [utils/dataProcessing.js] (findClosestAngleIndex, createSpectralPlotData),
    - [components/ClickableImage.js] (handleImageClick),

    and the properties the specification states about them.

    Modelling conventions.
    - A JavaScript array is a [list]; [arr[i]] is the stdpp lookup [arr !! i],
      whose [None] is JavaScript's [undefined].
    - An object literal is a [gmap string jsval]; a property that was never
      set looks up to [None] ([undefined]).
    - A thrown exception is the [Throws] branch of [outcome].
    - An [ArrayBuffer] is a [list Byte.byte]; a [Float32Array] element is
      the single-precision value read from its four bytes, kept as its 32-bit
      pattern when it is a number and as [NaN32] when it is a NaN; the
      decoder never does arithmetic on it.
    - The numbers of the spectral library are exact rationals [Q] where
      nothing that is proved depends on rounding: sampling, indexing, the
      plot and the re-projection of a stored marker. Array indices and pixel
      counts are [nat] or [Z].
    - What the angle matcher and the click handler return does depend on
      double-precision rounding (they compare computed differences, and round
      a computed product). They are modelled a second time on binary64
      doubles, the primitive [float], in [DataProcessingDouble] and
      [ClickableImageDouble], and the properties stated about their results
      are proved there. *)

From Stdlib Require Import ZArith QArith Qround Qabs Lia Lqa Ascii String.
From Stdlib Require Floats Uint63.
From stdpp Require Import base tactics option list gmap strings pretty.

Local Open Scope Z_scope.

(** ** Exceptions *)

Inductive jsError : Type :=
  | RangeError
  | Error (message : string).

Inductive outcome (A : Type) : Type :=
  | Returns (a : A)
  | Throws (e : jsError).
Arguments Returns {A} a.
Arguments Throws {A} e.

Definition bind {A B : Type} (m : outcome A) (k : A -> outcome B) : outcome B :=
  match m with
  | Returns a => k a
  | Throws e => Throws e
  end.

Notation "'let!' x ':=' m 'in' k" := (bind m (fun x => k))
  (at level 10, x name, m at level 100, k at level 200).

(** [try { body } catch (e) { handler }] *)
Definition tryCatch {A : Type} (body : outcome A) (handler : jsError -> A) : A :=
  match body with
  | Returns a => a
  | Throws e => handler e
  end.

(** ** JavaScript values stored in result objects *)

(** The Number held by a [Float32Array] element. Every single-precision
    value other than NaN has one 32-bit pattern, and is kept as that pattern;
    the patterns of NaN all read as the one Number NaN, whose payload a
    script cannot observe and an engine need not keep. *)
Inductive float32 : Type :=
  | NaN32
  | Bits32 (pattern : Z).

Inductive jsval : Type :=
  | VNull
  | VFloat32 (value : float32)
  | VInt (n : Z)
  | VStr (s : string).

(** ** utils/geoCubeLoader.js *)

Module GeoCubeLoader.

Definition ArrayBuffer : Type := list Byte.byte.

Definition byteLength (buffer : ArrayBuffer) : Z := Z.of_nat (length buffer).

Definition byteAt (view : ArrayBuffer) (k : nat) : Z :=
  match view !! k with
  | Some b => Z.of_N (Byte.to_N b)
  | None => 0
  end.

(** Four bytes read least significant first. *)
Definition littleEndian32 (view : ArrayBuffer) (byteOffset : nat) : Z :=
  byteAt view byteOffset
  + byteAt view (byteOffset + 1) * 2 ^ 8
  + byteAt view (byteOffset + 2) * 2 ^ 16
  + byteAt view (byteOffset + 3) * 2 ^ 24.

(** A single-precision pattern is a NaN when its eight exponent bits are all
    set and its 23 fraction bits are not all clear. *)
Definition isNaN32 (bits : Z) : bool :=
  (Z.land (Z.shiftr bits 23) 255 =? 255) && negb (Z.land bits 0x7FFFFF =? 0).

Definition float32OfBits (bits : Z) : float32 :=
  if isNaN32 bits then NaN32 else Bits32 bits.

(** [view.getFloat32(byteOffset, true)]; a read that does not fit in the
    view throws [RangeError]. *)
Definition getFloat32 (view : ArrayBuffer) (byteOffset : nat) : outcome float32 :=
  if decide (Z.of_nat byteOffset + 4 <= byteLength view)
  then Returns (float32OfBits (littleEndian32 view byteOffset))
  else Throws RangeError.

Definition numBands : Z := 9.
Definition numLines : Z := 681.
Definition numSamples : Z := 681.
Definition totalElements : Z := numBands * numLines * numSamples.

(** The body of [for (let i = 0; i < totalElements; i++)], with [n] the
    number of iterations still to run. *)
Fixpoint parseLoop (view : ArrayBuffer) (data : list float32) (i n : nat)
  : outcome (list float32) :=
  match n with
  | O => Returns data
  | S n' =>
      let! v := getFloat32 view (i * 4) in
      parseLoop view (<[i := v]> data) (S i) n'
  end.

Definition parseGeoCube (buffer : ArrayBuffer) : outcome (list float32) :=
  let view := buffer in
  let data := replicate (Z.to_nat totalElements) (Bits32 0) in
  parseLoop view data 0 (Z.to_nat totalElements).

(** [getGeoValue]; [x], [y] and [band] are integers, so [Math.floor] is the
    identity on them. The result is [None] for the source's [null]. *)
Definition cubeIndex (x y band : Z) : Z :=
  let clampedX := Z.max 0 (Z.min x (numSamples - 1)) in
  let clampedY := Z.max 0 (Z.min y (numLines - 1)) in
  let clampedBand := Z.max 0 (Z.min band (numBands - 1)) in
  clampedBand * numLines * numSamples + clampedY * numSamples + clampedX.

Definition getGeoValue (geoCubeData : list float32) (x y band : Z) : option float32 :=
  let index := cubeIndex x y band in
  if decide (index < 0 \/ index >= Z.of_nat (length geoCubeData)) then None
  else geoCubeData !! Z.to_nat index.

Definition orNull (v : option float32) : jsval :=
  match v with
  | Some value => VFloat32 value
  | None => VNull
  end.

Definition errorMessage (e : jsError) : string :=
  match e with
  | RangeError => "Offset is outside the bounds of the DataView"
  | Error message => message
  end.

(** The object built in the [try] block of [extractGeoValues]. *)
Definition geoValuesObject (geoData : list float32) (x y : Z) : gmap string jsval :=
  let lat := getGeoValue geoData x y 0 in
  let lon := getGeoValue geoData x y 1 in
  let phase := getGeoValue geoData x y 4 in
  let incidence := getGeoValue geoData x y 5 in
  let emis := getGeoValue geoData x y 6 in
  <["lat" := orNull lat]> (<["lon" := orNull lon]> (<["phase" := orNull phase]>
  (<["incidence" := orNull incidence]> (<["emis" := orNull emis]>
  (<["x" := VInt x]> (<["y" := VInt y]> ∅)))))).

(** The object built in the [catch] block. *)
Definition geoErrorObject (e : jsError) (x y : Z) : gmap string jsval :=
  <["lat" := VNull]> (<["lon" := VNull]> (<["phase" := VNull]>
  (<["incidence" := VNull]> (<["emis" := VNull]>
  (<["x" := VInt x]> (<["y" := VInt y]> (<["error" := VStr (errorMessage e)]> ∅))))))).

(** [extractGeoValues]; [fetched] is what [await loadGeoCubeFile(phaseAngle)]
    yields: the bytes of the file, or the exception of a failed fetch. *)
Definition extractGeoValues (fetched : outcome ArrayBuffer) (x y : Z)
  : gmap string jsval :=
  tryCatch
    (let! buffer := fetched in
     let! geoData := parseGeoCube buffer in
     Returns (geoValuesObject geoData x y))
    (fun e => geoErrorObject e x y).

(** A buffer one byte longer than a geo cube file, and one a byte shorter. *)
Definition oversizedBuffer : ArrayBuffer := replicate (Z.to_nat 16695397) Byte.x00.
Definition truncatedBuffer : ArrayBuffer := replicate (Z.to_nat 16695395) Byte.x00.

End GeoCubeLoader.

(** ** Numbers in exact arithmetic *)

Definition number : Type := Q.

(** [a < b] on numbers, as a boolean. *)
Definition ltb (a b : number) : bool :=
  match (a ?= b)%Q with
  | Lt => true
  | _ => false
  end.

Definition leb (a b : number) : bool := negb (ltb b a).

(** [Math.round]: the nearest integer, a tie going up. *)
Definition Math_round (q : number) : Z := Qfloor (q + (1 # 2))%Q.

(** [arr.findIndex(p)]; [None] stands for the source's [-1]. *)
Fixpoint findIndex {A : Type} (p : A -> bool) (arr : list A) : option nat :=
  match arr with
  | [] => None
  | a :: arr' => if p a then Some O else S <$> findIndex p arr'
  end.

(** ** utils/dataLoader.js *)

Module DataLoader.

(** The parsed JSON document; a key that is missing is [None], and so is a
    [null] row of a case table. *)
Record SpectralData : Type := mkSpectralData {
  wavelength : option (list number);
  standard : option (list (option (list number)));
  no_ch4 : option (list (option (list number)));
  no_haze : option (list (option (list number)));
  inc : option (list number);
  emi : option (list number);
  daz : option (list number)
}.

(** [Math.max(1, Math.floor(length / maxPoints))]. [None] is the step that
    is not finite: [maxPoints = 0] divides by zero (Infinity, or NaN for an
    empty array), and [i += step] then ends the loop after index 0. *)
Definition samplingStep (length : nat) (maxPoints : Z) : option nat :=
  if decide (maxPoints = 0) then None
  else Some (Z.to_nat (Z.max 1 (Z.of_nat length / maxPoints))).

(** [for (let i = ...; i < arr.length; i += step) sampled.push(arr[i])],
    entered at index [i] with [sampled] collected so far; [fuel] bounds the
    number of iterations. *)
Fixpoint sampleLoop {A : Type} (arr : list A) (step : option nat)
    (i fuel : nat) (sampled : list A) : list A :=
  match fuel with
  | O => sampled
  | S fuel' =>
      match arr !! i with
      | Some a =>
          match step with
          | Some s => sampleLoop arr step (i + s) fuel' (sampled ++ [a])
          | None => sampled ++ [a]
          end
      | None => sampled
      end
  end.

(** The loop run to completion: a step is at least 1, so [length arr]
    iterations are enough (lemma [sampleLoop_fuel]). *)
Definition everyStep {A : Type} (arr : list A) (step : option nat) : list A :=
  sampleLoop arr step 0 (length arr) [].

Definition sampleWavelength (wavelength : list number) (maxPoints : Z) : list number :=
  let step := samplingStep (length wavelength) maxPoints in
  let sampledWavelength := everyStep wavelength step in
  if (Z.of_nat (length sampledWavelength) <? maxPoints) && (0 <? length wavelength)%nat
  then sampledWavelength ++ option_list (last wavelength)
  else sampledWavelength.

Definition sampleSpectralArray (step : option nat)
    (spectralArray : option (list (option (list number))))
  : list (option (list number)) :=
  match spectralArray with
  | None => []
  | Some spectra =>
      (fun spectrum =>
         match spectrum with
         | None => Some []
         | Some values => Some (everyStep values step)
         end) <$> spectra
  end.

(** [[...new Set(arr || [])]]: the distinct values, in order of first
    occurrence. *)
Definition uniqueValues (arr : option (list number)) : list number :=
  foldl (fun seen a => if existsb (Qeq_bool a) seen then seen else seen ++ [a])
        [] (default [] arr).

Definition sampleData (data : SpectralData) (maxPoints : Z) : SpectralData :=
  match wavelength data with
  | None => data
  | Some w =>
      let step := samplingStep (length w) maxPoints in
      {| wavelength := Some (sampleWavelength w maxPoints);
         inc := Some (uniqueValues (inc data));
         emi := Some (uniqueValues (emi data));
         daz := Some (uniqueValues (daz data));
         standard := Some (sampleSpectralArray step (standard data));
         no_ch4 := Some (sampleSpectralArray step (no_ch4 data));
         no_haze := Some (sampleSpectralArray step (no_haze data)) |}
  end.

(** No two entries of the array are the same number. *)
Definition pairwiseDistinct (arr : list number) : Prop :=
  forall i j a b, (i < j)%nat -> arr !! i = Some a -> arr !! j = Some b -> ~ (a == b)%Q.

(** Entry [i] of the array is [a], and no entry before it is the same number. *)
Definition firstOccurrence (arr : list number) (i : nat) (a : number) : Prop :=
  arr !! i = Some a /\ forall j c, (j < i)%nat -> arr !! j = Some c -> ~ (c == a)%Q.

(** [s.includes(sub)] *)
Fixpoint includes (s sub : string) : bool :=
  String.prefix sub s
  || match s with
     | EmptyString => false
     | String _ s' => includes s' sub
     end.

(** What [fetch] resolves to. *)
Record Response : Type := mkResponse {
  ok : bool;
  status : Z;
  text : string
}.

Section LoadJsonFile.
(** The environment of [loadJsonFile]: [fetch] (which rejects on a network
    failure), [JSON.parse] (which throws on a malformed text) and the used
    heap size in MB that [getMemoryInfo] reports after sampling, when the
    browser exposes [performance.memory]. *)
Variable fetch : string -> outcome Response.
Variable JSON_parse : string -> outcome SpectralData.
Variable usedMB : option Z.

(** The body of the [try] block: everything between the cache test and
    [dataCache.set]. After sampling, the log line reads
    [data.wavelength.length], which throws a TypeError (an [Error] here) for
    a document without [wavelength]. *)
Definition loadAndParse (url : string) : outcome SpectralData :=
  let! response := fetch url in
  if negb (ok response)
  then Throws (Error ("HTTP error! status: " +:+ pretty (status response)))
  else
    let! data :=
      match JSON_parse (text response) with
      | Returns data => Returns data
      | Throws e => Throws (Error ("JSON parse error: " +:+ GeoCubeLoader.errorMessage e))
      end in
    if includes url "init_gui_library.json" then
      let data := sampleData data 100 in
      match wavelength data with
      | None => Throws (Error "Cannot read properties of undefined (reading 'length')")
      | Some _ =>
          match usedMB with
          | Some used =>
              if 100 <? used
              then Throws (Error "Memory usage too high after data sampling")
              else Returns data
          | None => Returns data
          end
      end
    else Returns data.

(** [loadJsonFile] on the cache [dataCache]: the result of the call and the
    cache after it. *)
Definition loadJsonFile (dataCache : gmap string SpectralData) (url : string)
  : outcome SpectralData * gmap string SpectralData :=
  match dataCache !! url with
  | Some data => (Returns data, dataCache)
  | None =>
      match loadAndParse url with
      | Returns data => (Returns data, <[url := data]> dataCache)
      | Throws e => (Throws e, dataCache)
      end
  end.
End LoadJsonFile.

Definition clearDataCache (dataCache : gmap string SpectralData)
  : gmap string SpectralData := ∅.

Definition getCacheSize (dataCache : gmap string SpectralData) : nat := size dataCache.

(** A library of [n] wavelengths whose value at each position is the
    position itself: 0, 1, ..., n-1. *)
Definition positions (n : nat) : list number :=
  map (fun i => inject_Z (Z.of_nat i)) (seq 0 n).

(** A library with three wavelengths and one spectrum per case. *)
Definition shortLibrary : SpectralData :=
  {| wavelength := Some [1; 2; 3]%Q;
     standard := Some [Some [10; 20; 30]%Q];
     no_ch4 := Some [Some [11; 21; 31]%Q];
     no_haze := Some [Some [12; 22; 32]%Q];
     inc := Some [0]%Q; emi := Some [0]%Q; daz := Some [0]%Q |}.

End DataLoader.

(** ** utils/dataProcessing.js

    In exact arithmetic; [DataProcessingDouble] below has the angle matcher
    in double precision. *)

Module DataProcessing.
Import DataLoader.

Definition tolerance : number := (1 # 1000000)%Q.

Definition angleDiff (angleArray : list number) (targetAngle : number) (i : nat) : number :=
  Qabs (default 0%Q (angleArray !! i) - targetAngle)%Q.

(** The body of [for (let i = 1; i < angleArray.length; i++)], with [n]
    iterations still to run. *)
Fixpoint closestLoop (angleArray : list number) (targetAngle : number)
    (i n closestIndex : nat) (minDiff : number) : nat :=
  match n with
  | O => closestIndex
  | S n' =>
      let diff := angleDiff angleArray targetAngle i in
      if ltb diff minDiff
      then closestLoop angleArray targetAngle (S i) n' i diff
      else closestLoop angleArray targetAngle (S i) n' closestIndex minDiff
  end.

Definition findClosestAngleIndex (angleArray : list number) (targetAngle : number) : nat :=
  match angleArray with
  | [] => O
  | _ :: _ =>
      match findIndex (fun angle => ltb (Qabs (angle - targetAngle)%Q) tolerance) angleArray with
      | Some exactIndex => exactIndex
      | None =>
          closestLoop angleArray targetAngle 1 (length angleArray - 1) 0
                      (angleDiff angleArray targetAngle 0)
      end
  end.

Record AngleCombination : Type := mkAngleCombination {
  incidence : number;
  emission : number;
  azimuth : number;
  index : nat
}.

(** The three nested loops of [processSpectralData]. *)
Definition angleCombinations (inc emi daz : list number) : list AngleCombination :=
  flat_map (fun i =>
    flat_map (fun j =>
      map (fun k =>
             {| incidence := default 0%Q (inc !! i);
                emission := default 0%Q (emi !! j);
                azimuth := default 0%Q (daz !! k);
                index := (i * length emi * length daz + j * length daz + k)%nat |})
          (seq 0 (length daz)))
      (seq 0 (length emi)))
    (seq 0 (length inc)).

(** [findClosestAngleIndex] behind the guard [arr ? ... : 0]. *)
Definition indexIn (arr : option (list number)) (angle : number) : nat :=
  match arr with
  | Some a => findClosestAngleIndex a angle
  | None => O
  end.

Definition lengthOr1 (arr : option (list number)) : nat :=
  match arr with
  | Some a => length a
  | None => 1%nat
  end.

Definition angleIndex (data : SpectralData)
    (incidenceAngle emissionAngle azimuthAngle : number) : nat :=
  let incidenceIndex := indexIn (inc data) incidenceAngle in
  let emissionIndex := indexIn (emi data) emissionAngle in
  let azimuthIndex := indexIn (daz data) azimuthAngle in
  let emissionLength := lengthOr1 (emi data) in
  let azimuthLength := lengthOr1 (daz data) in
  (incidenceIndex * emissionLength * azimuthLength
   + emissionIndex * azimuthLength
   + azimuthIndex)%nat.

(** [table && table[angleIndex] ? table[angleIndex] : []] *)
Definition rowOrEmpty (table : option (list (option (list number)))) (angleIndex : nat)
  : list number :=
  match table with
  | Some rows =>
      match rows !! angleIndex with
      | Some (Some values) => values
      | _ => []
      end
  | None => []
  end.

(** The [switch (caseType)] of [createSpectralPlotData]. *)
Definition spectralValues (data : SpectralData) (caseType : string) (angleIndex : nat)
  : list number :=
  if decide (caseType = "standard") then rowOrEmpty (standard data) angleIndex
  else if decide (caseType = "no_ch4") then rowOrEmpty (no_ch4 data) angleIndex
  else if decide (caseType = "no_haze") then rowOrEmpty (no_haze data) angleIndex
  else rowOrEmpty (standard data) angleIndex.



(** Every entry of the axis is at least the matching tolerance away from
    the entries before it. *)
Definition separated (axis : list number) : Prop :=
  forall i j a b, (j < i)%nat -> axis !! j = Some b -> axis !! i = Some a ->
                  (tolerance <= Qabs (b - a))%Q.

(** The object returned by [processSpectralData]: the seven keys of the
    library next to the combinations. *)
Record ProcessedData : Type := mkProcessedData {
  processed_library : SpectralData;
  processed_angleCombinations : list AngleCombination
}.

(** [processSpectralData]; [None] is [null]. The combinations are built only
    when the three angle axes are present. *)
Definition processSpectralData (spectralData : option SpectralData) : option ProcessedData :=
  match spectralData with
  | None => None
  | Some data =>
      Some {| processed_library := data;
              processed_angleCombinations :=
                match inc data, emi data, daz data with
                | Some i, Some e, Some d => angleCombinations i e d
                | _, _, _ => []
                end |}
  end.

Record AvailableAngles : Type := mkAvailableAngles {
  available_incidence : list number;
  available_emission : list number;
  available_azimuth : list number
}.

Definition getAvailableAngles (spectralData : option SpectralData) : AvailableAngles :=
  match spectralData with
  | None => {| available_incidence := []; available_emission := [];
               available_azimuth := [] |}
  | Some data =>
      {| available_incidence := uniqueValues (inc data);
         available_emission := uniqueValues (emi data);
         available_azimuth := uniqueValues (daz data) |}
  end.

(** The angle axes of the specification's example: incidence and emission
    every 30 degrees up to 90, azimuth every 30 degrees up to 330. *)
Definition exampleAngles : list number := [0; 30; 60; 90]%Q.
Definition exampleAzimuths : list number :=
  [0; 30; 60; 90; 120; 150; 180; 210; 240; 270; 300; 330]%Q.

(** A library with two azimuths, hence two angle combinations, whose case
    tables hold a single row. *)
Definition tinyLibrary : SpectralData :=
  {| wavelength := Some [1; 2]%Q;
     standard := Some [Some [5; 6]%Q];
     no_ch4 := Some [Some [7; 8]%Q];
     no_haze := Some [Some [9; 10]%Q];
     inc := Some [0]%Q; emi := Some [0]%Q; daz := Some [0; 30]%Q |}.

End DataProcessing.

(** ** components/ClickableImage.js

    The handler and the effect in exact arithmetic; [ClickableImageDouble]
    below has the handler in double precision. *)

Module ClickableImage.

(** The marker kept in the [clickPosition] state. The natural coordinates
    are integers after [Math.round]; [None] is the NaN that a zero display
    size produces (a division by zero). *)
Record Marker : Type := mkMarker {
  displayX : number;
  displayY : number;
  naturalX : option Z;
  naturalY : option Z
}.

(** What the handler reads from [imageRef.current]. *)
Record ImageElement : Type := mkImageElement {
  offsetWidth : Z;
  offsetHeight : Z;
  naturalWidth : Z;
  naturalHeight : Z;
  imgRect_left : number;
  imgRect_top : number
}.

(** [containerRef.current.getBoundingClientRect()] *)
Record Container : Type := mkContainer {
  rect_left : number;
  rect_top : number
}.

Record MouseEvent : Type := mkMouseEvent {
  clientX : number;
  clientY : number
}.

(** The call made to the [onImageClick] prop. *)
Inductive Callback : Type :=
  | OnImageClickNull
  | OnImageClick (x y : option Z) (position : Marker).

(** [Math.round(relative * (natural / offset))] *)
Definition toNatural (relative : number) (natural offset : Z) : option Z :=
  if decide (offset = 0) then None
  else Some (Math_round (relative * (inject_Z natural / inject_Z offset))%Q).

(** [Math.max(0, Math.min(n, natural - 1))] *)
Definition clamp (n : option Z) (natural : Z) : option Z :=
  (fun v => Z.max 0 (Z.min v (natural - 1))) <$> n.

Definition relativeX (img : ImageElement) (container : Container) (e : MouseEvent) : number :=
  let clickX := (clientX e - rect_left container)%Q in
  let imgLeft := (imgRect_left img - rect_left container)%Q in
  (clickX - imgLeft)%Q.

Definition relativeY (img : ImageElement) (container : Container) (e : MouseEvent) : number :=
  let clickY := (clientY e - rect_top container)%Q in
  let imgTop := (imgRect_top img - rect_top container)%Q in
  (clickY - imgTop)%Q.

Definition withinImage (img : ImageElement) (relX relY : number) : bool :=
  leb 0%Q relX && leb relX (inject_Z (offsetWidth img))
  && leb 0%Q relY && leb relY (inject_Z (offsetHeight img)).

Definition nearMarker (clickPosition : option Marker) (relX relY : number) : bool :=
  match clickPosition with
  | Some m =>
      ltb (Qabs (displayX m - relX)%Q) 10%Q && ltb (Qabs (displayY m - relY)%Q) 10%Q
  | None => false
  end.

(** [handleImageClick]: the next [clickPosition] state and the call made to
    [onImageClick], if any. *)
Definition handleImageClick (imageRef : option ImageElement)
    (containerRef : option Container) (clickPosition : option Marker) (e : MouseEvent)
  : option Marker * option Callback :=
  match imageRef, containerRef with
  | Some img, Some container =>
      let relX := relativeX img container e in
      let relY := relativeY img container e in
      if withinImage img relX relY then
        let clampedX := clamp (toNatural relX (naturalWidth img) (offsetWidth img))
                              (naturalWidth img) in
        let clampedY := clamp (toNatural relY (naturalHeight img) (offsetHeight img))
                              (naturalHeight img) in
        if nearMarker clickPosition relX relY then (None, Some OnImageClickNull)
        else
          let newPosition :=
            {| displayX := relX; displayY := relY;
               naturalX := clampedX; naturalY := clampedY |} in
          (Some newPosition, Some (OnImageClick clampedX clampedY newPosition))
      else (clickPosition, None)
  | _, _ => (clickPosition, None)
  end.

(** The [initialPosition] prop. The application passes its [clickedPosition]
    state, an object with [x], [y] and [position]; a key that is absent is
    [None]. *)
Record InitialPosition : Type := mkInitialPosition {
  ip_x : option Z;
  ip_y : option Z;
  ip_position : option Marker
}.

(** [updateImageSize], run by the effect when the image is loaded: the next
    [clickPosition] state. *)
Definition updateImageSize (imageRef : option ImageElement)
    (initialPosition : option InitialPosition) (clickPosition : option Marker)
  : option Marker :=
  match imageRef with
  | None => clickPosition
  | Some img =>
      match initialPosition with
      | Some {| ip_x := Some x; ip_y := Some y |} =>
          if bool_decide (naturalWidth img > 0) && bool_decide (naturalHeight img > 0)
             && bool_decide (offsetWidth img > 0) && bool_decide (offsetHeight img > 0)
          then
            let scaleX := (inject_Z (offsetWidth img) / inject_Z (naturalWidth img))%Q in
            let scaleY := (inject_Z (offsetHeight img) / inject_Z (naturalHeight img))%Q in
            Some {| displayX := (inject_Z x * scaleX)%Q;
                    displayY := (inject_Z y * scaleY)%Q;
                    naturalX := Some x; naturalY := Some y |}
          else clickPosition
      | Some {| ip_position := Some position |} => Some position
      | Some _ => clickPosition
      | None => None
      end
  end.


(** A 681 x 681 image shown at 400 x 400 in the corner of its container, and
    a click 100 pixels right of and 50 pixels below its corner. *)
Definition exampleImage : ImageElement :=
  {| offsetWidth := 400; offsetHeight := 400;
     naturalWidth := 681; naturalHeight := 681;
     imgRect_left := 0%Q; imgRect_top := 0%Q |}.
Definition exampleContainer : Container := {| rect_left := 0%Q; rect_top := 0%Q |}.
Definition exampleClick : MouseEvent := {| clientX := 100%Q; clientY := 50%Q |}.

(** A click on the bottom right corner of the image. *)
Definition cornerClick : MouseEvent := {| clientX := 400%Q; clientY := 400%Q |}.

End ClickableImage.

(** ** utils/imageLoader.js *)

Module ImageLoader.

(** [s.padStart(targetLength, c)] for a one-character pad. *)
Definition padStart (s : string) (targetLength : nat) (c : Ascii.ascii) : string :=
  string_of_list_ascii (replicate (targetLength - String.length s) c) +:+ s.

(** [String(Math.round(phaseAngle)).padStart(3, '0')]; [pretty] writes an
    integer in decimal, with a leading minus sign when it is negative. *)
Definition formatPhaseAngle (phaseAngle : number) : string :=
  padStart (pretty (Math_round phaseAngle)) 3 "0"%char.

Definition getImageFilename (phaseAngle : number) : string :=
  "2012_A0.1_p" +:+ formatPhaseAngle phaseAngle +:+ "_colorCCD.img".

Definition getXmlFilename (phaseAngle : number) : string :=
  "2012_A0.1_p" +:+ formatPhaseAngle phaseAngle +:+ "_colorCCD.xml".

Definition getImageUrl (phaseAngle : number) (compositeType : string) : string :=
  "/assets/2012_A0.1_p" +:+ formatPhaseAngle phaseAngle +:+ "_" +:+ compositeType +:+ ".png".

Definition getXmlUrl (phaseAngle : number) : string :=
  "/src/assets/" +:+ getXmlFilename phaseAngle.

(** [loadPds4Image]: the URL when the fetch answers with an ok status,
    [None] ([null]) when it does not or when it rejects. *)
Definition loadPds4Image (fetch : string -> outcome DataLoader.Response)
    (phaseAngle : number) (compositeType : string) : option string :=
  let imageUrl := getImageUrl phaseAngle compositeType in
  tryCatch
    (let! response := fetch imageUrl in
     Returns (if DataLoader.ok response then Some imageUrl else None))
    (fun _ => None).

(** [for (let i = 0; i <= 215; i += 5) angles.push(i)], with [n] iterations
    still to run. *)
Fixpoint phaseAngleLoop (i : Z) (n : nat) (angles : list Z) : list Z :=
  match n with
  | O => angles
  | S n' => if i <=? 215 then phaseAngleLoop (i + 5) n' (angles ++ [i]) else angles
  end.

Definition getAvailablePhaseAngles : list Z := phaseAngleLoop 0 216 [].

(** The character of a decimal digit, and the three digits of a number
    below 1000. *)
Definition digit (d : Z) : Ascii.ascii := Ascii.ascii_of_N (Z.to_N (48 + d)).

Definition threeDigits (n : Z) : string :=
  String (digit (n / 100)) (String (digit (n / 10 mod 10))
    (String (digit (n mod 10)) EmptyString)).

End ImageLoader.

(** ** utils/geoCubeLoader.js: the fetch *)

Module GeoCubeFile.
Import GeoCubeLoader.

Definition geoCubeUrl (phaseAngle : number) : string :=
  let paddedPhase := ImageLoader.formatPhaseAngle phaseAngle in
  let filename := "2012_A0.1_p" +:+ paddedPhase +:+ "_geo.img" in
  "/assets/raw/" +:+ filename.

(** What [fetch] resolves to for a binary file. *)
Record BinaryResponse : Type := mkBinaryResponse {
  ok : bool;
  status : Z;
  arrayBuffer : ArrayBuffer
}.

(** [loadGeoCubeFile]: the bytes, or the exception that is logged and thrown
    again. *)
Definition loadGeoCubeFile (fetch : string -> outcome BinaryResponse)
    (phaseAngle : number) : outcome ArrayBuffer :=
  let! response := fetch (geoCubeUrl phaseAngle) in
  if negb (ok response)
  then Throws (Error ("Failed to load geo cube: " +:+ pretty (status response)))
  else Returns (arrayBuffer response).

(** [extractGeoValues(phaseAngle, x, y)] with its fetch. *)
Definition extractGeoValuesAt (fetch : string -> outcome BinaryResponse)
    (phaseAngle : number) (x y : Z) : gmap string jsval :=
  extractGeoValues (loadGeoCubeFile fetch phaseAngle) x y.

End GeoCubeFile.

(** ** utils/largeDataHandler.js *)

Module LargeDataHandler.

(** The array branch of [sampleLargeData]: an array longer than [maxPoints]
    keeps the elements whose index is a multiple of
    [Math.ceil(length / maxPoints)]. [maxPoints] is a positive integer. *)
Definition sampleArray {A : Type} (value : list A) (maxPoints : Z) : list A :=
  if Z.of_nat (length value) >? maxPoints then
    let step := - ((- Z.of_nat (length value)) / maxPoints) in
    omap (fun '(index, a) => if Z.of_nat index mod step =? 0 then Some a else None)
         (imap (fun index a => (index, a)) value)
  else value.

End LargeDataHandler.

(** ** Double-precision numbers

    A JavaScript Number is an IEEE 754 binary64 value. Rocq's primitive
    [float] is that type, and its operations round as the processor does, so
    [x - y], [x * y], [x / y], [abs x] and the comparisons below are the
    code's [-], [*], [/], [Math.abs], [<] and [<=]. A NaN compares false with
    everything. *)

Module Float64.
Import PrimFloat SpecFloat FloatOps.

(** The Number holding the integer [z]: exact for |z| < 2^53, which covers
    every size the DOM reports (the conversion goes through a 63-bit machine
    integer and is not meant for |z| >= 2^63). *)
Definition Number (z : Z) : float :=
  if z <? 0 then (- of_uint63 (Uint63.of_Z (- z)))%float
  else of_uint63 (Uint63.of_Z z).

(** The rational a finite double stands for: sign * mantissa * 2^exponent. *)
Definition SFvalue (x : spec_float) : option Q :=
  match x with
  | S754_zero _ => Some 0%Q
  | S754_finite s m e => Some (inject_Z (cond_Zopp s (Zpos m)) * 2 ^ e)%Q
  | S754_infinity _ | S754_nan => None
  end.

Definition valueOf (x : float) : option Q := SFvalue (Prim2SF x).

(** What [Math.round] returns: NaN, an infinity or an integer. *)
Inductive rounded : Type :=
  | RNaN
  | RInfinity (negative : bool)
  | RInt (n : Z).

(** [Math.round(x)]: NaN and the infinities are returned as they are, and a
    finite [x] gives floor(x + 1/2), taken on the value of [x] without
    rounding the sum. The sign of a zero result is not kept: the clamp that
    follows, [Math.max(0, ...)], returns +0 for either zero. *)
Definition Math_round (x : float) : rounded :=
  match Prim2SF x with
  | S754_nan => RNaN
  | S754_infinity s => RInfinity s
  | S754_zero _ => RInt 0
  | S754_finite s m e =>
      RInt (Qfloor (inject_Z (cond_Zopp s (Zpos m)) * 2 ^ e + (1 # 2))%Q)
  end.

(** The order of the doubles read off their representation: the class
    (negative infinity, negative, zero, positive, positive infinity), then
    the exponent, then the mantissa; the two zeros are equal and NaN has no
    place. *)
Definition SFkey (x : spec_float) : option (Z * Z * Z) :=
  match x with
  | S754_nan => None
  | S754_infinity true => Some (-2, 0, 0)
  | S754_finite true m e => Some (-1, - e, - Zpos m)
  | S754_zero _ => Some (0, 0, 0)
  | S754_finite false m e => Some (1, e, Zpos m)
  | S754_infinity false => Some (2, 0, 0)
  end.

Definition keyLt (a b : Z * Z * Z) : Prop :=
  let '(c1, e1, m1) := a in
  let '(c2, e2, m2) := b in
  c1 < c2 \/ (c1 = c2 /\ (e1 < e2 \/ (e1 = e2 /\ m1 < m2))).

Definition SFlt (x y : spec_float) : Prop :=
  match SFkey x, SFkey y with
  | Some a, Some b => keyLt a b
  | _, _ => False
  end.

Definition SFle (x y : spec_float) : Prop :=
  match SFkey x, SFkey y with
  | Some a, Some b => keyLt a b \/ a = b
  | _, _ => False
  end.

End Float64.

(** ** utils/dataProcessing.js: the angle matcher on doubles *)

Module DataProcessingDouble.
Import PrimFloat.
#[local] Set Warnings "-inexact-float".

Definition tolerance : float := 1e-6%float.

(** [Math.abs(angleArray[i] - targetAngle)]; an index past the end reads
    [undefined], and the difference is then NaN. *)
Definition angleDiff (angleArray : list float) (targetAngle : float) (i : nat) : float :=
  abs (default nan (angleArray !! i) - targetAngle)%float.

(** The body of [for (let i = 1; i < angleArray.length; i++)], with [n]
    iterations still to run. *)
Fixpoint closestLoop (angleArray : list float) (targetAngle : float)
    (i n closestIndex : nat) (minDiff : float) : nat :=
  match n with
  | O => closestIndex
  | S n' =>
      let diff := angleDiff angleArray targetAngle i in
      if (diff <? minDiff)%float
      then closestLoop angleArray targetAngle (S i) n' i diff
      else closestLoop angleArray targetAngle (S i) n' closestIndex minDiff
  end.

Definition findClosestAngleIndex (angleArray : list float) (targetAngle : float) : nat :=
  match angleArray with
  | [] => O
  | _ :: _ =>
      match findIndex (fun angle => (abs (angle - targetAngle) <? tolerance)%float)
                      angleArray with
      | Some exactIndex => exactIndex
      | None =>
          closestLoop angleArray targetAngle 1 (length angleArray - 1) 0
                      (angleDiff angleArray targetAngle 0)
      end
  end.

Definition exampleAngles : list float := [0; 30; 60; 90]%float.

End DataProcessingDouble.

(** ** components/ClickableImage.js: the click handler on doubles *)

Module ClickableImageDouble.
Import PrimFloat Float64.

(** The marker kept in the [clickPosition] state. The display position is
    the Number computed from the event; a natural coordinate is an integer
    after [Math.round] and the clamp, or NaN ([None]). *)
Record Marker : Type := mkMarker {
  displayX : float;
  displayY : float;
  naturalX : option Z;
  naturalY : option Z
}.

(** What the handler reads from [imageRef.current]: the four sizes are
    integers (long and unsigned long in the DOM), the rectangle is made of
    doubles. *)
Record ImageElement : Type := mkImageElement {
  offsetWidth : Z;
  offsetHeight : Z;
  naturalWidth : Z;
  naturalHeight : Z;
  imgRect_left : float;
  imgRect_top : float
}.

(** [containerRef.current.getBoundingClientRect()] *)
Record Container : Type := mkContainer {
  rect_left : float;
  rect_top : float
}.

Record MouseEvent : Type := mkMouseEvent {
  clientX : float;
  clientY : float
}.

(** The call made to the [onImageClick] prop. *)
Inductive Callback : Type :=
  | OnImageClickNull
  | OnImageClick (x y : option Z) (position : Marker).

(** [Math.round(relative * scale)] with [scale = natural / offset]. *)
Definition toNatural (relative : float) (natural offset : Z) : rounded :=
  let scale := (Number natural / Number offset)%float in
  Math_round (relative * scale)%float.

(** [Math.max(0, Math.min(n, natural - 1))]: NaN stays NaN, the infinities
    go to the nearer end. *)
Definition clamp (n : rounded) (natural : Z) : option Z :=
  match n with
  | RNaN => None
  | RInfinity true => Some 0
  | RInfinity false => Some (Z.max 0 (natural - 1))
  | RInt v => Some (Z.max 0 (Z.min v (natural - 1)))
  end.

Definition relativeX (img : ImageElement) (container : Container) (e : MouseEvent) : float :=
  let clickX := (clientX e - rect_left container)%float in
  let imgLeft := (imgRect_left img - rect_left container)%float in
  (clickX - imgLeft)%float.

Definition relativeY (img : ImageElement) (container : Container) (e : MouseEvent) : float :=
  let clickY := (clientY e - rect_top container)%float in
  let imgTop := (imgRect_top img - rect_top container)%float in
  (clickY - imgTop)%float.

(** [relativeX >= 0 && relativeX <= img.offsetWidth && relativeY >= 0 &&
    relativeY <= img.offsetHeight] *)
Definition withinImage (img : ImageElement) (relX relY : float) : bool :=
  (0 <=? relX)%float && (relX <=? Number (offsetWidth img))%float
  && (0 <=? relY)%float && (relY <=? Number (offsetHeight img))%float.

(** [clickPosition && Math.abs(clickPosition.displayX - relativeX) < 10 &&
    Math.abs(clickPosition.displayY - relativeY) < 10] *)
Definition nearMarker (clickPosition : option Marker) (relX relY : float) : bool :=
  match clickPosition with
  | Some m =>
      (abs (displayX m - relX) <? 10)%float && (abs (displayY m - relY) <? 10)%float
  | None => false
  end.

(** [handleImageClick]: the next [clickPosition] state and the call made to
    [onImageClick], if any. *)
Definition handleImageClick (imageRef : option ImageElement)
    (containerRef : option Container) (clickPosition : option Marker) (e : MouseEvent)
  : option Marker * option Callback :=
  match imageRef, containerRef with
  | Some img, Some container =>
      let relX := relativeX img container e in
      let relY := relativeY img container e in
      if withinImage img relX relY then
        let clampedX := clamp (toNatural relX (naturalWidth img) (offsetWidth img))
                              (naturalWidth img) in
        let clampedY := clamp (toNatural relY (naturalHeight img) (offsetHeight img))
                              (naturalHeight img) in
        if nearMarker clickPosition relX relY then (None, Some OnImageClickNull)
        else
          let newPosition :=
            {| displayX := relX; displayY := relY;
               naturalX := clampedX; naturalY := clampedY |} in
          (Some newPosition, Some (OnImageClick clampedX clampedY newPosition))
      else (clickPosition, None)
  | _, _ => (clickPosition, None)
  end.

(** A 681 x 681 image shown at 400 x 400 in the corner of its container, a
    click 100 pixels right of and 50 pixels below its corner, and a click on
    its bottom right corner. *)
Definition exampleImage : ImageElement :=
  {| offsetWidth := 400; offsetHeight := 400;
     naturalWidth := 681; naturalHeight := 681;
     imgRect_left := 0; imgRect_top := 0 |}.
Definition exampleContainer : Container := {| rect_left := 0; rect_top := 0 |}.
Definition exampleClick : MouseEvent := {| clientX := 100; clientY := 50 |}.
Definition cornerClick : MouseEvent := {| clientX := 400; clientY := 400 |}.

(** The same image shown at 312 x 312, and a click on its middle. *)
Definition narrowImage : ImageElement :=
  {| offsetWidth := 312; offsetHeight := 312;
     naturalWidth := 681; naturalHeight := 681;
     imgRect_left := 0; imgRect_top := 0 |}.
Definition middleClick : MouseEvent := {| clientX := 156; clientY := 156 |}.

(** An image that did not load keeps a layout box but has no natural size. *)
Definition brokenImage : ImageElement :=
  {| offsetWidth := 400; offsetHeight := 400;
     naturalWidth := 0; naturalHeight := 0;
     imgRect_left := 0; imgRect_top := 0 |}.

(** An image laid out with no width and no height, and a click on its
    corner. *)
Definition collapsedImage : ImageElement :=
  {| offsetWidth := 0; offsetHeight := 0;
     naturalWidth := 681; naturalHeight := 681;
     imgRect_left := 0; imgRect_top := 0 |}.
Definition originClick : MouseEvent := {| clientX := 0; clientY := 0 |}.

End ClickableImageDouble.

(** * Properties *)

(** ** Comparisons and rounding *)

Lemma ltb_lt (a b : number) : ltb a b = true <-> (a < b)%Q.
Proof.
  unfold ltb. rewrite Qlt_alt. destruct (a ?= b)%Q; split; congruence.
Qed.

Lemma ltb_ge (a b : number) : ltb a b = false <-> (b <= a)%Q.
Proof.
  rewrite <- not_true_iff_false, ltb_lt. split.
  - apply Qnot_lt_le.
  - intros H1 H2. exact (Qlt_not_le _ _ H2 H1).
Qed.

Lemma leb_le (a b : number) : leb a b = true <-> (a <= b)%Q.
Proof. unfold leb. rewrite negb_true_iff. apply ltb_ge. Qed.

(** [Math.round] is within one half of its argument, a tie going up. *)
Lemma Math_round_nearest (q : number) :
  (q - (1 # 2) < inject_Z (Math_round q) <= q + (1 # 2))%Q.
Proof.
  unfold Math_round.
  pose proof (Qfloor_le (q + (1 # 2))) as Hle.
  pose proof (Qlt_floor (q + (1 # 2))) as Hlt.
  rewrite inject_Z_plus in Hlt. change (inject_Z 1) with 1%Q in Hlt.
  split; lra.
Qed.

(** ** Geo-cube decoder *)

Module GeoCubeLoaderProofs.
Import GeoCubeLoader.

Lemma totalElements_eq : totalElements = 4173849.
Proof. reflexivity. Qed.

Lemma getFloat32_fits view off :
  Z.of_nat off + 4 <= byteLength view ->
  getFloat32 view off = Returns (float32OfBits (littleEndian32 view off)).
Proof. intros H. unfold getFloat32. by rewrite decide_True. Qed.

Lemma getFloat32_overrun view off :
  byteLength view < Z.of_nat off + 4 ->
  getFloat32 view off = Throws RangeError.
Proof. intros H. unfold getFloat32. rewrite decide_False; [done | lia]. Qed.

(** The bytes 00 00 80 3F are the single-precision pattern of 1.0. *)
Example getFloat32_one :
  getFloat32 [Byte.x00; Byte.x00; Byte.x80; Byte.x3f] 0 = Returns (Bits32 0x3F800000).
Proof. reflexivity. Qed.

(** The bytes 01 00 80 7F are a signalling NaN, 00 00 C0 7F the quiet NaN and
    00 00 80 7F is +Infinity. *)
Example getFloat32_nan :
  getFloat32 [Byte.x01; Byte.x00; Byte.x80; Byte.x7f] 0 = Returns NaN32
  /\ getFloat32 [Byte.x00; Byte.x00; Byte.xc0; Byte.x7f] 0 = Returns NaN32
  /\ getFloat32 [Byte.x00; Byte.x00; Byte.x80; Byte.x7f] 0 = Returns (Bits32 0x7F800000).
Proof. by vm_compute. Qed.

Example getFloat32_three_bytes :
  getFloat32 [Byte.x00; Byte.x80; Byte.x3f] 0 = Throws RangeError.
Proof. reflexivity. Qed.

(** The loop stops with the exception of the first read that overruns. *)
Lemma parseLoop_throws view n : forall data i,
  (0 < n)%nat ->
  byteLength view < 4 * Z.of_nat (i + n) ->
  parseLoop view data i n = Throws RangeError.
Proof.
  induction n as [|n IH]; intros data i Hn Hlen; [lia|].
  cbn [parseLoop].
  destruct (decide (Z.of_nat (i * 4) + 4 <= byteLength view)) as [Hfit|Hfit].
  - rewrite getFloat32_fits by done. cbn [bind].
    apply IH; [destruct n; lia | lia].
  - rewrite getFloat32_overrun by lia. done.
Qed.

(** With enough bytes every iteration stores its element. *)
Lemma parseLoop_returns view n : forall data i,
  4 * Z.of_nat (i + n) <= byteLength view ->
  exists data',
    parseLoop view data i n = Returns data'
    /\ length data' = length data
    /\ (forall j, (i <= j < i + n)%nat -> (j < length data)%nat ->
                  data' !! j = Some (float32OfBits (littleEndian32 view (j * 4))))
    /\ (forall j, (j < i)%nat -> data' !! j = data !! j).
Proof.
  induction n as [|n IH]; intros data i Hlen.
  - exists data. cbn [parseLoop]. split_and!; [done|done| |done]. intros j Hj; lia.
  - cbn [parseLoop]. rewrite getFloat32_fits by lia. cbn [bind].
    destruct (IH (<[i := float32OfBits (littleEndian32 view (i * 4))]> data) (S i))
      as (data' & Hrun & Hlen' & Hnew & Hold); [lia|].
    exists data'. rewrite length_insert in Hlen'. split_and!; [done|done| |].
    + intros j Hj Hjlen. destruct (decide (j = i)) as [->|Hne].
      * rewrite Hold by lia. by apply list_lookup_insert_eq.
      * apply Hnew; [lia|]. by rewrite length_insert.
    + intros j Hj. rewrite Hold by lia. apply list_lookup_insert_ne. lia.
Qed.

Lemma byteLength_replicate n b :
  0 <= n -> byteLength (replicate (Z.to_nat n) b) = n.
Proof. intros H. unfold byteLength. rewrite length_replicate. lia. Qed.

(** C1 (as the code has it): a buffer shorter than 9*681*681*4 bytes makes
    parseGeoCube throw (the RangeError of the read that overruns the view)
    and no array, partial or padded, is returned; a buffer of that length or
    longer is accepted, and an array of 9*681*681 elements is returned. *)
Theorem parseGeoCube_by_buffer_length (buffer : ArrayBuffer) :
  (byteLength buffer < 9 * 681 * 681 * 4 ->
     parseGeoCube buffer = Throws RangeError)
  /\ (9 * 681 * 681 * 4 <= byteLength buffer ->
        exists data,
          parseGeoCube buffer = Returns data
          /\ Z.of_nat (length data) = 9 * 681 * 681).
Proof.
  pose proof totalElements_eq as Htot. unfold parseGeoCube. split; intros Hlen.
  - apply parseLoop_throws; lia.
  - destruct (parseLoop_returns buffer (Z.to_nat totalElements)
                (replicate (Z.to_nat totalElements) (Bits32 0)) 0)
      as (data & Hrun & Hlen' & _); [lia|].
    rewrite length_replicate in Hlen'. exists data. split; [done|]. lia.
Qed.

(** A buffer one byte short is rejected. *)
Lemma parseGeoCube_by_buffer_length_witness :
  byteLength truncatedBuffer < 9 * 681 * 681 * 4
  /\ parseGeoCube truncatedBuffer = Throws RangeError.
Proof.
  assert (H : byteLength truncatedBuffer < 9 * 681 * 681 * 4).
  { unfold truncatedBuffer. rewrite byteLength_replicate; lia. }
  split; [exact H|].
  exact (proj1 (parseGeoCube_by_buffer_length truncatedBuffer) H).
Defined.

(** C1 (as stated) fails: a buffer of 16,695,397 bytes does not have the
    length of a geo cube, yet parseGeoCube returns an array for it. *)
Lemma parseGeoCube_accepts_oversized_buffer :
  byteLength oversizedBuffer <> 9 * 681 * 681 * 4
  /\ exists data, parseGeoCube oversizedBuffer = Returns data.
Proof.
  assert (H : byteLength oversizedBuffer = 16695397).
  { unfold oversizedBuffer. rewrite byteLength_replicate; lia. }
  split; [lia|].
  destruct (parseLoop_returns oversizedBuffer (Z.to_nat totalElements)
              (replicate (Z.to_nat totalElements) (Bits32 0)) 0)
    as (data & Hrun & _); [pose proof totalElements_eq; lia|].
  by exists data.
Qed.

(** *** Lookup and the geometry reading *)

Lemma cubeIndex_bounds x y band : 0 <= cubeIndex x y band < totalElements.
Proof.
  unfold cubeIndex, totalElements, numBands, numLines, numSamples. lia.
Qed.

(** Index arithmetic round-trips on coordinates that need no clamping. *)
Lemma cubeIndex_roundtrip x y band :
  0 <= x <= 680 -> 0 <= y <= 680 -> 0 <= band <= 8 ->
  let index := cubeIndex x y band in
  index mod 681 = x /\ (index / 681) mod 681 = y /\ index / (681 * 681) = band.
Proof.
  intros Hx Hy Hb. unfold cubeIndex, numBands, numLines, numSamples. cbn zeta.
  rewrite !Z.max_r, !Z.min_l by lia.
  replace (band * 681 * 681 + y * 681 + x) with (x + (y + band * 681) * 681) by lia.
  split_and!.
  - rewrite Z.mod_add by lia. apply Z.mod_small. lia.
  - rewrite Z.div_add by lia. rewrite (Z.div_small x) by lia.
    rewrite Z.add_0_l, Z.mod_add by lia. apply Z.mod_small. lia.
  - replace (x + (y + band * 681) * 681) with ((x + y * 681) + band * (681 * 681)) by lia.
    rewrite Z.div_add by lia. rewrite Z.div_small by lia. lia.
Qed.

Lemma getGeoValue_lookup data x y band :
  getGeoValue data x y band = data !! Z.to_nat (cubeIndex x y band).
Proof.
  unfold getGeoValue. pose proof (cubeIndex_bounds x y band) as Hb.
  destruct (decide _) as [[Hneg|Hge]|_]; [lia| |done].
  symmetry. apply lookup_ge_None. lia.
Qed.

Example getGeoValue_clamps :
  getGeoValue [Bits32 7; Bits32 8; Bits32 9] (-3) 0 0 = Some (Bits32 7)
  /\ getGeoValue [Bits32 7; Bits32 8; Bits32 9] 2 0 0 = Some (Bits32 9)
  /\ getGeoValue [Bits32 7; Bits32 8; Bits32 9] 3 0 0 = None.
Proof. by vm_compute. Qed.

(** A lookup is null exactly when the array ends before its index. *)
Lemma getGeoValue_null data x y band :
  getGeoValue data x y band = None <->
  Z.of_nat (length data) <= cubeIndex x y band.
Proof.
  rewrite getGeoValue_lookup, lookup_ge_None.
  pose proof (cubeIndex_bounds x y band). lia.
Qed.

Lemma parseLoop_length view n : forall data i data',
  parseLoop view data i n = Returns data' -> length data' = length data.
Proof.
  induction n as [|n IH]; intros data i data' H; cbn [parseLoop] in H.
  - by inversion H.
  - destruct (getFloat32 view (i * 4)) as [v|e]; cbn [bind] in H; [|done].
    apply IH in H. by rewrite length_insert in H.
Qed.

Lemma parseGeoCube_length buffer data :
  parseGeoCube buffer = Returns data -> Z.of_nat (length data) = totalElements.
Proof.
  unfold parseGeoCube. intros H. apply parseLoop_length in H.
  rewrite length_replicate in H. pose proof totalElements_eq. lia.
Qed.

Lemma geoValuesObject_fields data x y :
  let obj := geoValuesObject data x y in
  obj !! "lat" = Some (orNull (getGeoValue data x y 0))
  /\ obj !! "lon" = Some (orNull (getGeoValue data x y 1))
  /\ obj !! "phase" = Some (orNull (getGeoValue data x y 4))
  /\ obj !! "incidence" = Some (orNull (getGeoValue data x y 5))
  /\ obj !! "emis" = Some (orNull (getGeoValue data x y 6)).
Proof.
  cbn zeta. unfold geoValuesObject. split_and!; by simplify_map_eq.
Qed.

(** Each field is null on its own: an array that ends inside band 6 gives a
    reading whose [emis] is null and whose other four fields hold values. *)
Lemma geoValuesObject_partial data x y :
  cubeIndex x y 5 < Z.of_nat (length data) <= cubeIndex x y 6 ->
  let obj := geoValuesObject data x y in
  obj !! "emis" = Some VNull
  /\ (exists a, obj !! "lat" = Some (VFloat32 a))
  /\ (exists a, obj !! "lon" = Some (VFloat32 a))
  /\ (exists a, obj !! "phase" = Some (VFloat32 a))
  /\ (exists a, obj !! "incidence" = Some (VFloat32 a)).
Proof.
  intros [Hlt Hge]. cbn zeta.
  destruct (geoValuesObject_fields data x y) as (Hlat & Hlon & Hph & Hinc & Hemi).
  rewrite Hlat, Hlon, Hph, Hinc, Hemi.
  assert (Hpop : forall band, cubeIndex x y band <= cubeIndex x y 5 ->
            exists a, Some (orNull (getGeoValue data x y band)) = Some (VFloat32 a)).
  { intros band Hband. rewrite getGeoValue_lookup.
    pose proof (cubeIndex_bounds x y band).
    destruct (lookup_lt_is_Some_2 data (Z.to_nat (cubeIndex x y band))) as [a Ha]; [lia|].
    rewrite Ha. by exists a. }
  split_and!.
  - by rewrite (proj2 (getGeoValue_null data x y 6)).
  - apply Hpop. unfold cubeIndex, numBands, numLines, numSamples. lia.
  - apply Hpop. unfold cubeIndex, numBands, numLines, numSamples. lia.
  - apply Hpop. unfold cubeIndex, numBands, numLines, numSamples. lia.
  - apply Hpop. lia.
Qed.

(** Inside [extractGeoValues] the array always has 9*681*681 elements, so
    after a successful parse none of the five lookups is null. *)
Lemma extractGeoValues_populated buffer data x y :
  parseGeoCube buffer = Returns data ->
  forall k, k ∈ ["lat"; "lon"; "phase"; "incidence"; "emis"] ->
  exists a, extractGeoValues (Returns buffer) x y !! k = Some (VFloat32 a).
Proof.
  intros Hparse k Hk. unfold extractGeoValues. cbn [bind]. rewrite Hparse.
  cbn [bind tryCatch]. apply parseGeoCube_length in Hparse.
  destruct (geoValuesObject_fields data x y) as (Hlat & Hlon & Hph & Hinc & Hemi).
  assert (Hpop : forall band,
            exists a, Some (orNull (getGeoValue data x y band)) = Some (VFloat32 a)).
  { intros band. rewrite getGeoValue_lookup.
    pose proof (cubeIndex_bounds x y band).
    destruct (lookup_lt_is_Some_2 data (Z.to_nat (cubeIndex x y band))) as [a Ha]; [lia|].
    rewrite Ha. by exists a. }
  set_unfold in Hk.
  destruct Hk as [->|[->|[->|[->|[->|[]]]]]];
    rewrite ?Hlat, ?Hlon, ?Hph, ?Hinc, ?Hemi; apply Hpop.
Qed.

(** C5 (the code departs from it): whatever the fetch yields and whatever
    the coordinate, the object extractGeoValues returns has no azimuth
    property: band 7 is never looked up, and only lat, lon, phase,
    incidence and emis (bands 0, 1, 4, 5, 6) are packaged next to x and y. *)
Theorem extractGeoValues_omits_azimuth (fetched : outcome ArrayBuffer) (x y : Z) :
  extractGeoValues fetched x y !! "azimuth" = None
  /\ dom (extractGeoValues fetched x y) ⊆
       ({["lat"; "lon"; "phase"; "incidence"; "emis"; "x"; "y"; "error"]} : gset string).
Proof.
  unfold extractGeoValues.
  destruct fetched as [buffer|e]; cbn [bind tryCatch];
    [destruct (parseGeoCube buffer) as [data|e]; cbn [bind tryCatch]|];
    unfold geoValuesObject, geoErrorObject; cbn zeta;
    (split; [by simplify_map_eq | rewrite !dom_insert_L, dom_empty_L; set_unfold; tauto]).
Qed.

End GeoCubeLoaderProofs.

(** ** Spectral sampler *)

Module DataLoaderProofs.
Import DataLoader.

Section Loop.
Context {A : Type}.
Implicit Types (arr sampled : list A) (s i k fuel : nat).

(** What the loop pushes, when its fuel covers the rest of the array:
    the elements at [i], [i + s], [i + 2 s], ... *)
Lemma sampleLoop_lookup arr s fuel : forall i sampled,
  (1 <= s)%nat -> (length arr <= i + fuel)%nat ->
  exists out,
    sampleLoop arr (Some s) i fuel sampled = sampled ++ out
    /\ forall k, out !! k = arr !! (i + k * s)%nat.
Proof.
  induction fuel as [|fuel IH]; intros i sampled Hs Hfuel; cbn [sampleLoop].
  - exists []. rewrite app_nil_r. split; [done|]. intros k.
    symmetry. rewrite lookup_nil. apply lookup_ge_None. lia.
  - destruct (arr !! i) as [a|] eqn:Hi.
    + destruct (IH (i + s)%nat (sampled ++ [a])) as (out & Hrun & Hout); [done|lia|].
      exists (a :: out). split; [by rewrite Hrun, <- app_assoc|].
      intros [|k]; cbn.
      * by rewrite Nat.add_0_r.
      * rewrite Hout. f_equal. lia.
    + exists []. rewrite app_nil_r. split; [done|]. intros k.
      symmetry. rewrite lookup_nil. apply lookup_ge_None.
      apply lookup_ge_None in Hi. lia.
Qed.

(** More fuel than the array is long changes nothing: the loop has
    ended on its condition [i < arr.length]. *)
Lemma sampleLoop_fuel arr s i fuel fuel' sampled :
  (1 <= s)%nat -> (length arr <= i + fuel)%nat -> (length arr <= i + fuel')%nat ->
  sampleLoop arr (Some s) i fuel sampled = sampleLoop arr (Some s) i fuel' sampled.
Proof.
  intros Hs H1 H2.
  destruct (sampleLoop_lookup arr s fuel i sampled Hs H1) as (o1 & -> & Ho1).
  destruct (sampleLoop_lookup arr s fuel' i sampled Hs H2) as (o2 & -> & Ho2).
  f_equal. apply list_eq. intros k. by rewrite Ho1, Ho2.
Qed.

Lemma everyStep_lookup arr s k :
  (1 <= s)%nat -> everyStep arr (Some s) !! k = arr !! (k * s)%nat.
Proof.
  intros Hs. unfold everyStep.
  destruct (sampleLoop_lookup arr s (length arr) 0 [] Hs) as (out & -> & Hout); [lia|].
  cbn. by rewrite Hout.
Qed.

Lemma everyStep_unbounded arr : everyStep arr None = take 1 arr.
Proof. by destruct arr. Qed.

Lemma everyStep_1 arr : everyStep arr (Some 1%nat) = arr.
Proof.
  apply list_eq. intros k. rewrite everyStep_lookup by lia. f_equal. lia.
Qed.

(** Position [k] is retained exactly when [k * s] is an index of the array. *)
Lemma everyStep_length_le arr s k :
  (1 <= s)%nat -> (length (everyStep arr (Some s)) <= k)%nat <-> (length arr <= k * s)%nat.
Proof.
  intros Hs. rewrite <- !lookup_ge_None. by rewrite everyStep_lookup.
Qed.

End Loop.

Lemma everyStep_same_length {A B : Type} (a : list A) (b : list B) s :
  (1 <= s)%nat -> length a = length b ->
  length (everyStep a (Some s)) = length (everyStep b (Some s)).
Proof.
  intros Hs Hab.
  pose proof (everyStep_length_le a s (length (everyStep b (Some s))) Hs) as H1.
  pose proof (everyStep_length_le b s (length (everyStep b (Some s))) Hs) as H2.
  pose proof (everyStep_length_le a s (length (everyStep a (Some s))) Hs) as H3.
  pose proof (everyStep_length_le b s (length (everyStep a (Some s))) Hs) as H4.
  lia.
Qed.

Lemma samplingStep_finite n maxPoints :
  maxPoints <> 0 ->
  samplingStep n maxPoints = Some (Z.to_nat (Z.max 1 (Z.of_nat n / maxPoints))).
Proof. intros H. unfold samplingStep. by rewrite decide_False. Qed.

(** A library with at least [maxPoints] wavelengths already yields
    [maxPoints] retained positions: nothing is appended. *)
Lemma everyStep_count (w : list number) maxPoints :
  0 < maxPoints <= Z.of_nat (length w) ->
  maxPoints <= Z.of_nat (length (everyStep w (samplingStep (length w) maxPoints))).
Proof.
  intros Hmp. rewrite samplingStep_finite by lia.
  set (s := Z.to_nat (Z.max 1 (Z.of_nat (length w) / maxPoints))).
  set (c := length (everyStep w (Some s))).
  assert (Hs1 : (1 <= s)%nat) by (unfold s; lia).
  assert (Hq : 1 <= Z.of_nat (length w) / maxPoints).
  { apply Z.div_le_lower_bound; lia. }
  assert (Hsn : Z.of_nat s * maxPoints <= Z.of_nat (length w)).
  { unfold s. rewrite Z2Nat.id, Z.max_r by lia.
    rewrite Z.mul_comm. apply Z.mul_div_le. lia. }
  pose proof (proj1 (everyStep_length_le w s c Hs1) (Nat.le_refl _)) as Hc.
  destruct (Z_lt_le_dec (Z.of_nat c) maxPoints) as [Hlt|Hge]; [|done].
  exfalso. nia.
Qed.

Lemma sampleSpectralArray_row step rows j values :
  rows !! j = Some (Some values) ->
  sampleSpectralArray step (Some rows) !! j = Some (Some (everyStep values step)).
Proof. intros H. unfold sampleSpectralArray. by rewrite list_lookup_fmap, H. Qed.

Lemma sampleData_table data w maxPoints table :
  wavelength data = Some w ->
  table ∈ [standard; no_ch4; no_haze] ->
  table (sampleData data maxPoints)
  = Some (sampleSpectralArray (samplingStep (length w) maxPoints) (table data)).
Proof.
  intros Hw Ht. unfold sampleData. rewrite Hw. set_unfold in Ht.
  by destruct Ht as [->|[->|[->|[]]]].
Qed.

Lemma sampleData_wavelength data w maxPoints :
  wavelength data = Some w ->
  wavelength (sampleData data maxPoints) = Some (sampleWavelength w maxPoints).
Proof. intros Hw. unfold sampleData. by rewrite Hw. Qed.

(** When the library has at least [maxPoints] wavelengths the sampled axis
    and every sampled row of full length keep the same positions
    0, step, 2 step, ... and the same length. *)
Lemma sampleData_aligned data w maxPoints :
  wavelength data = Some w ->
  0 < maxPoints <= Z.of_nat (length w) ->
  let step := Z.to_nat (Z.max 1 (Z.of_nat (length w) / maxPoints)) in
  exists w',
    wavelength (sampleData data maxPoints) = Some w'
    /\ (forall k, w' !! k = w !! (k * step)%nat)
    /\ forall table rows j values,
         table ∈ [standard; no_ch4; no_haze] ->
         table data = Some rows -> rows !! j = Some (Some values) ->
         length values = length w ->
         exists rows' values',
           table (sampleData data maxPoints) = Some rows'
           /\ rows' !! j = Some (Some values')
           /\ length values' = length w'
           /\ forall k, values' !! k = values !! (k * step)%nat.
Proof.
  intros Hw Hmp step.
  assert (Hs : (1 <= step)%nat) by (unfold step; lia).
  pose proof (everyStep_count w maxPoints Hmp) as Hcount.
  assert (Hsw : sampleWavelength w maxPoints = everyStep w (Some step)).
  { unfold sampleWavelength.
    destruct (Z.ltb_spec (Z.of_nat (length (everyStep w (samplingStep (length w) maxPoints))))
                maxPoints) as [Hlt|_]; [lia|].
    cbn [andb]. by rewrite samplingStep_finite by lia. }
  exists (everyStep w (Some step)). split_and!.
  - by rewrite (sampleData_wavelength data w), Hsw.
  - intros k. by apply everyStep_lookup.
  - intros table rows j values Ht Hrows Hj Hlen.
    exists (sampleSpectralArray (Some step) (Some rows)), (everyStep values (Some step)).
    split_and!.
    + rewrite (sampleData_table data w) by done.
      by rewrite Hrows, samplingStep_finite by lia.
    + by apply sampleSpectralArray_row.
    + by apply everyStep_same_length.
    + intros k. by apply everyStep_lookup.
Qed.

Example sampleData_shortLibrary :
  sampleData shortLibrary 100
  = {| wavelength := Some [1; 2; 3; 3]%Q;
       standard := Some [Some [10; 20; 30]%Q];
       no_ch4 := Some [Some [11; 21; 31]%Q];
       no_haze := Some [Some [12; 22; 32]%Q];
       inc := Some [0]%Q; emi := Some [0]%Q; daz := Some [0]%Q |}.
Proof. reflexivity. Qed.

(** C2 (the code departs from it): for a library with fewer wavelengths
    than maxPoints the step is 1 and every position is retained, but
    sampleData then appends the last wavelength once more to the wavelength
    axis only. The sampled axis has one element more than every sampled row
    of any of the three case tables, so axis and rows are no longer of the
    same length. *)
Theorem sampleData_short_library_misaligned
    (data : SpectralData) (w : list number) (maxPoints : Z) :
  wavelength data = Some w ->
  (0 < length w)%nat ->
  Z.of_nat (length w) < maxPoints ->
  exists w',
    wavelength (sampleData data maxPoints) = Some w'
    /\ w' = w ++ option_list (last w)
    /\ length w' = S (length w)
    /\ forall table rows j values,
         table ∈ [standard; no_ch4; no_haze] ->
         table data = Some rows -> rows !! j = Some (Some values) ->
         exists rows',
           table (sampleData data maxPoints) = Some rows'
           /\ rows' !! j = Some (Some values).
Proof.
  intros Hw Hpos Hlt.
  assert (Hstep : samplingStep (length w) maxPoints = Some 1%nat).
  { rewrite samplingStep_finite by lia. rewrite Z.div_small by lia. done. }
  assert (Hsw : sampleWavelength w maxPoints = w ++ option_list (last w)).
  { unfold sampleWavelength. rewrite Hstep, everyStep_1.
    destruct (Z.ltb_spec (Z.of_nat (length w)) maxPoints); [|lia].
    destruct (Nat.ltb_spec 0 (length w)); [done|lia]. }
  exists (w ++ option_list (last w)). split_and!.
  - by rewrite (sampleData_wavelength data w), Hsw.
  - done.
  - rewrite length_app. destruct (last w) as [x|] eqn:Hlast; cbn; [lia|].
    apply last_None in Hlast. subst w. cbn in Hpos. lia.
  - intros table rows j values Ht Hrows Hj.
    exists (sampleSpectralArray (Some 1%nat) (Some rows)). split.
    + by rewrite (sampleData_table data w), Hrows, Hstep.
    + rewrite (sampleSpectralArray_row _ _ _ values) by done.
      by rewrite everyStep_1.
Qed.

(** The three-wavelength library sampled with the loader's budget of 100. *)
Lemma sampleData_short_library_misaligned_witness :
  exists w',
    wavelength (sampleData shortLibrary 100) = Some w'
    /\ length w' = 4%nat
    /\ exists rows', standard (sampleData shortLibrary 100) = Some rows'
                     /\ rows' !! 0%nat = Some (Some [10; 20; 30]%Q).
Proof.
  destruct (sampleData_short_library_misaligned shortLibrary [1; 2; 3]%Q 100)
    as (w' & Hw' & _ & Hlen & Hrows); [reflexivity | cbn; lia | cbn; lia |].
  exists w'. split; [exact Hw'|]. split; [exact Hlen|].
  destruct (Hrows standard [Some [10; 20; 30]%Q] 0%nat [10; 20; 30]%Q)
    as (rows' & Ht & Hj); [set_solver | reflexivity | reflexivity |].
  exists rows'. split; [exact Ht | exact Hj].
Defined.

(** C3 (as the code has it): for maxPoints other than 0, sampling retains
    the wavelengths at positions 0, step, 2 step, ... with
    step = max(1, floor(length / maxPoints)), and appends the last original
    wavelength when the retained count is below maxPoints and the source is
    not empty. For 12 wavelengths and maxPoints = 4 the step is 3 and the
    retained positions are 0, 3, 6, 9: their count is 4, which is not below
    maxPoints, so position 11 is not appended. *)
Theorem sampleWavelength_retained :
  (forall (w : list number) (maxPoints : Z),
     maxPoints <> 0 ->
     let step := Z.to_nat (Z.max 1 (Z.of_nat (length w) / maxPoints)) in
     exists retained,
       (forall k, retained !! k = w !! (k * step)%nat)
       /\ sampleWavelength w maxPoints
          = retained ++
            (if (Z.of_nat (length retained) <? maxPoints) && (0 <? length w)%nat
             then option_list (last w) else []))
  /\ (forall w0 w1 w2 w3 w4 w5 w6 w7 w8 w9 w10 w11 : number,
        sampleWavelength [w0; w1; w2; w3; w4; w5; w6; w7; w8; w9; w10; w11] 4
        = [w0; w3; w6; w9]).
Proof.
  split.
  - intros w maxPoints Hmp step.
    exists (everyStep w (Some step)). split.
    + intros k. apply everyStep_lookup. unfold step. lia.
    + unfold sampleWavelength. rewrite samplingStep_finite by done.
      fold step.
      destruct (_ && _); [done|]. by rewrite app_nil_r.
  - reflexivity.
Qed.

(** Twelve wavelengths numbered by their position, sampled down to four. *)
Lemma sampleWavelength_retained_witness :
  exists retained,
    (forall k, retained !! k = positions 12 !! (k * 3)%nat)
    /\ sampleWavelength (positions 12) 4 = retained ++ [].
Proof.
  destruct (proj1 sampleWavelength_retained (positions 12) 4) as (r & Hr & Hs);
    [lia|].
  exists r. split; [exact Hr|].
  rewrite Hs. f_equal.
  assert (Hlen : length r = 4%nat).
  { pose proof (lookup_lt_Some r 3 _ (Hr 3%nat)) as Hge.
    apply (f_equal length) in Hs. rewrite length_app in Hs.
    change (length (sampleWavelength (positions 12) 4)) with 4%nat in Hs. lia. }
  rewrite Hlen. reflexivity.
Defined.

(** C3 (as stated) fails on its own example: the 12-wavelength library
    sampled with maxPoints = 4 does not retain positions [0,3,6,9,11]; it
    retains [0,3,6,9]. *)
Lemma sampleWavelength_12_by_4_drops_position_11 :
  sampleWavelength (positions 12) 4 <> [0; 3; 6; 9; 11]%Q
  /\ sampleWavelength (positions 12) 4 = [0; 3; 6; 9]%Q.
Proof. split; [discriminate | reflexivity]. Qed.

End DataLoaderProofs.

(** ** Angle matcher and spectral index resolver *)

Module DataProcessingProofs.
Import DataLoader DataProcessing.

Section FindIndex.
Context {A : Type} (p : A -> bool).

Lemma findIndex_Some arr i :
  findIndex p arr = Some i ->
  (exists a, arr !! i = Some a /\ p a = true)
  /\ forall j b, (j < i)%nat -> arr !! j = Some b -> p b = false.
Proof.
  revert i. induction arr as [|a arr IH]; intros i H; cbn in H; [done|].
  destruct (p a) eqn:Hpa.
  - inversion H; subst i. split; [by exists a | intros j b Hj; lia].
  - destruct (findIndex p arr) as [i'|]; cbn in H; [|done].
    inversion H; subst i. destruct (IH i' eq_refl) as [Hex Hbefore].
    split; [done|]. intros [|j] b Hj Hb; cbn in Hb.
    + by inversion Hb; subst b.
    + apply (Hbefore j); [lia | done].
Qed.

Lemma findIndex_None arr :
  findIndex p arr = None -> forall i a, arr !! i = Some a -> p a = false.
Proof.
  induction arr as [|a arr IH]; intros H i b Hb; cbn in H; [done|].
  destruct (p a) eqn:Hpa; [done|].
  destruct (findIndex p arr); cbn in H; [done|].
  destruct i as [|i]; cbn in Hb; [by inversion Hb; subst b|].
  by apply (IH eq_refl i).
Qed.
End FindIndex.

Section Closest.
Variables (angleArray : list number) (targetAngle : number).
Local Abbreviation d := (angleDiff angleArray targetAngle).

(** The scan keeps the earliest index whose difference is minimal among
    the indices seen so far. *)
Lemma closestLoop_minimal n : forall i c,
  (i + n = length angleArray)%nat -> (c < i)%nat ->
  (forall j, (j < i)%nat -> (d c <= d j)%Q) ->
  (forall j, (j < c)%nat -> (d c < d j)%Q) ->
  let r := closestLoop angleArray targetAngle i n c (d c) in
  (r < length angleArray)%nat
  /\ (forall j, (j < length angleArray)%nat -> (d r <= d j)%Q)
  /\ (forall j, (j < r)%nat -> (d r < d j)%Q).
Proof.
  induction n as [|n IH]; intros i c Hin Hc Hmin Hfirst; cbn [closestLoop].
  - cbn zeta. split_and!; [lia| |done]. intros j Hj. apply Hmin. lia.
  - destruct (ltb (d i) (d c)) eqn:Hlt.
    + apply ltb_lt in Hlt. apply IH; [lia|lia| |].
      * intros j Hj. destruct (decide (j = i)) as [->|Hne]; [apply Qle_refl|].
        apply Qlt_le_weak. eapply Qlt_le_trans; [exact Hlt|]. apply Hmin. lia.
      * intros j Hj. eapply Qlt_le_trans; [exact Hlt|]. by apply Hmin.
    + apply ltb_ge in Hlt. apply IH; [lia|lia| |done].
      intros j Hj. destruct (decide (j = i)) as [->|Hne]; [done|].
      apply Hmin. lia.
Qed.
End Closest.

(** The combinations built by [processSpectralData] carry the row-major
    index of their three axis positions. *)
Lemma angleCombinations_index inc emi daz c :
  In c (angleCombinations inc emi daz) ->
  exists i j k,
    (i < length inc)%nat /\ (j < length emi)%nat /\ (k < length daz)%nat
    /\ index c = (i * length emi * length daz + j * length daz + k)%nat
    /\ inc !! i = Some (incidence c) /\ emi !! j = Some (emission c)
    /\ daz !! k = Some (azimuth c).
Proof.
  unfold angleCombinations. intros H.
  apply in_flat_map in H as (i & Hi & H).
  apply in_flat_map in H as (j & Hj & H).
  apply in_map_iff in H as (k & <- & Hk).
  apply in_seq in Hi, Hj, Hk. exists i, j, k.
  cbn [index incidence emission azimuth]. unfold number in *.
  destruct (lookup_lt_is_Some_2 inc i) as [a Ha]; [lia|].
  destruct (lookup_lt_is_Some_2 emi j) as [b Hb]; [lia|].
  destruct (lookup_lt_is_Some_2 daz k) as [c Hc]; [lia|].
  split_and!; [lia|lia|lia|done|by rewrite Ha|by rewrite Hb|by rewrite Hc].
Qed.

Lemma angleDiff_lookup angleArray targetAngle i a :
  angleArray !! i = Some a ->
  angleDiff angleArray targetAngle i = Qabs (a - targetAngle)%Q.
Proof. intros H. unfold angleDiff. by rewrite H. Qed.

Lemma findClosestAngleIndex_nonempty angleArray targetAngle :
  angleArray <> [] ->
  findClosestAngleIndex angleArray targetAngle
  = match findIndex (fun angle => ltb (Qabs (angle - targetAngle)%Q) tolerance) angleArray with
    | Some exactIndex => exactIndex
    | None => closestLoop angleArray targetAngle 1 (length angleArray - 1) 0
                          (angleDiff angleArray targetAngle 0)
    end.
Proof. by destruct angleArray. Qed.

(** C6 (as the code has it): on an empty angle array findClosestAngleIndex
    returns index 0, whatever the target, and no error is raised; it is the
    index it also returns for an array whose only angle is the target. *)
Theorem findClosestAngleIndex_of_empty_array (targetAngle : number) :
  findClosestAngleIndex [] targetAngle = 0%nat
  /\ findClosestAngleIndex [targetAngle] targetAngle = 0%nat.
Proof.
  split; [reflexivity|].
  rewrite findClosestAngleIndex_nonempty by done. cbn [findIndex].
  assert (Hexact : ltb (Qabs (targetAngle - targetAngle)%Q) tolerance = true).
  { apply ltb_lt, Qabs_Qlt_condition. unfold tolerance. split; lra. }
  by rewrite Hexact.
Qed.

(** C6 (as stated) fails: matching 45 degrees against the empty array does not
    fail, it silently yields index 0. *)
Lemma empty_angle_array_defaults_to_index_0 :
  findClosestAngleIndex [] 45%Q = 0%nat.
Proof. reflexivity. Qed.

Lemma rowOrEmpty_present table rows row values :
  table = Some rows -> rows !! row = Some (Some values) ->
  rowOrEmpty table row = values.
Proof. intros -> H. unfold rowOrEmpty. by rewrite H. Qed.

Lemma rowOrEmpty_absent table row :
  (table = None
   \/ exists rows, table = Some rows
                   /\ (rows !! row = None \/ rows !! row = Some None)) ->
  rowOrEmpty table row = [].
Proof.
  intros [->|(rows & -> & [H|H])]; unfold rowOrEmpty; [done|by rewrite H..].
Qed.

Lemma spectralValues_case data caseType table row :
  (caseType, table) ∈ [("standard", standard data); ("no_ch4", no_ch4 data);
                       ("no_haze", no_haze data)] ->
  spectralValues data caseType row = rowOrEmpty table row.
Proof.
  intros H. rewrite !elem_of_cons, elem_of_nil in H. unfold spectralValues.
  destruct H as [[= -> ->]|[[= -> ->]|[[= -> ->]|[]]]]; by repeat case_decide.
Qed.





(** C8: for each of the case names standard, no_ch4 and no_haze the spectral
    values selected are the row of the table of that name at the given row
    index when that table holds a row there, and the empty sequence when the
    table is missing, ends before the row, or holds null there. *)
Theorem spectralValues_selects_case_row
    (data : SpectralData) (caseType : string)
    (table : option (list (option (list number)))) (row : nat) :
  (caseType, table) ∈ [("standard", standard data); ("no_ch4", no_ch4 data);
                       ("no_haze", no_haze data)] ->
  (forall rows values,
     table = Some rows -> rows !! row = Some (Some values) ->
     spectralValues data caseType row = values)
  /\ ((table = None
       \/ exists rows, table = Some rows
                       /\ (rows !! row = None \/ rows !! row = Some None)) ->
      spectralValues data caseType row = []).
Proof.
  intros Hcase. rewrite (spectralValues_case data caseType table) by done. split.
  - intros rows values. apply rowOrEmpty_present.
  - apply rowOrEmpty_absent.
Qed.

(** The methane-free row of the one-row library, and the row after it. *)
Lemma spectralValues_selects_case_row_witness :
  spectralValues tinyLibrary "no_ch4" 0 = [7; 8]%Q
  /\ spectralValues tinyLibrary "no_ch4" 1 = [].
Proof.
  split.
  - apply (proj1 (spectralValues_selects_case_row tinyLibrary "no_ch4"
                    (no_ch4 tinyLibrary) 0 ltac:(set_solver)) [Some [7; 8]%Q]);
      reflexivity.
  - apply (proj2 (spectralValues_selects_case_row tinyLibrary "no_ch4"
                    (no_ch4 tinyLibrary) 1 ltac:(set_solver))).
    right. exists [Some [7; 8]%Q]. split; [reflexivity|]. left. reflexivity.
Defined.

End DataProcessingProofs.

(** ** Coordinate mapper *)

Module ClickableImageProofs.
Import ClickableImage.


Lemma clamp_in_range v natural :
  1 <= natural -> 0 <= Z.max 0 (Z.min v (natural - 1)) <= natural - 1.
Proof. lia. Qed.


Example handleImageClick_corner :
  handleImageClick (Some exampleImage) (Some exampleContainer) None cornerClick
  = (Some {| displayX := 400%Q; displayY := 400%Q;
             naturalX := Some 680; naturalY := Some 680 |},
     Some (OnImageClick (Some 680) (Some 680)
             {| displayX := 400%Q; displayY := 400%Q;
                naturalX := Some 680; naturalY := Some 680 |})).
Proof. reflexivity. Qed.

End ClickableImageProofs.

(** ** Double-precision arithmetic

    The facts about doubles that the angle matcher and the click handler
    need, derived from the specification of binary64 that comes with the
    primitive floats. *)

Module Float64Proofs.
Import PrimFloat SpecFloat FloatOps FloatAxioms Float64.

(** *** The number of binary digits *)

Lemma Zdigits2_log2 m : 0 < m -> Zdigits2 m = Z.log2 m + 1.
Proof.
  destruct m as [|p|p]; [lia| |lia]. intros _. cbn [Zdigits2].
  assert (Hsize : forall q, digits2_pos q = Pos.size q).
  { induction q as [q IH|q IH|]; cbn; by rewrite ?IH. }
  destruct p as [q|q|]; cbn [digits2_pos Z.log2]; rewrite ?Hsize; lia.
Qed.

Lemma Zdigits2_nonneg m : 0 <= Zdigits2 m.
Proof. destruct m; cbn; lia. Qed.

Lemma Zdigits2_le m n : 0 <= m <= n -> Zdigits2 m <= Zdigits2 n.
Proof.
  intros [Hm Hmn]. destruct (decide (m = 0)) as [->|Hne]; [apply Zdigits2_nonneg|].
  rewrite !Zdigits2_log2 by lia. pose proof (Z.log2_le_mono m n Hmn). lia.
Qed.

Lemma Zdigits2_succ m : 0 <= m -> Zdigits2 (m + 1) <= Zdigits2 m + 1.
Proof.
  intros Hm. destruct (decide (m = 0)) as [->|Hne]; [by vm_compute|].
  rewrite !Zdigits2_log2 by lia. pose proof (Z.log2_succ_le m) as H.
  rewrite <- Z.add_1_r in H. lia.
Qed.

Lemma Zdigits2_div_pow2 m n :
  0 <= m -> 0 <= n -> Zdigits2 (m / 2 ^ n) <= Z.max 0 (Zdigits2 m - n).
Proof.
  intros Hm Hn. assert (Hpow : 0 < 2 ^ n) by (apply Z.pow_pos_nonneg; lia).
  destruct (decide (m / 2 ^ n = 0)) as [->|Hne]; [cbn; lia|].
  assert (Hq : 0 < m / 2 ^ n) by (pose proof (Z.div_pos m (2 ^ n)); lia).
  assert (Hm' : 0 < m).
  { destruct (decide (m = 0)) as [->|]; [|lia]. rewrite Z.div_0_l in Hq; lia. }
  assert (Hge : n <= Z.log2 m).
  { apply Z.log2_le_pow2; [done|]. destruct (Z.lt_ge_cases m (2 ^ n)) as [Hlt|]; [|done].
    rewrite Z.div_small in Hq by lia. lia. }
  rewrite !Zdigits2_log2 by lia. rewrite <- Z.shiftr_div_pow2 by lia.
  rewrite Z.log2_shiftr by lia. lia.
Qed.

Lemma Zdigits2_mul a b : 0 <= a -> 0 <= b -> Zdigits2 (a * b) <= Zdigits2 a + Zdigits2 b.
Proof.
  intros Ha Hb. destruct (decide (a = 0)) as [->|Hna].
  { rewrite Z.mul_0_l. pose proof (Zdigits2_nonneg b). cbn. lia. }
  destruct (decide (b = 0)) as [->|Hnb].
  { rewrite Z.mul_0_r. pose proof (Zdigits2_nonneg a). cbn. lia. }
  rewrite !Zdigits2_log2 by nia. pose proof (Z.log2_mul_above a b Ha Hb). lia.
Qed.

Lemma Zdigits2_shiftl m s : 0 < m -> 0 <= s -> Zdigits2 (Z.shiftl m s) = Zdigits2 m + s.
Proof.
  intros Hm Hs. assert (0 < Z.shiftl m s).
  { rewrite Z.shiftl_mul_pow2 by done. pose proof (Z.pow_pos_nonneg 2 s). nia. }
  rewrite !Zdigits2_log2 by done. rewrite Z.log2_shiftl by lia. lia.
Qed.

Lemma digits2_pos_iter p k :
  Zpos (digits2_pos (Pos.iter xO p k)) = Zpos (digits2_pos p) + Zpos k.
Proof.
  induction k as [|k IH] using Pos.peano_ind.
  - cbn. lia.
  - rewrite Pos.iter_succ. cbn [digits2_pos]. lia.
Qed.

(** *** Shifting the mantissa right *)

Lemma shr_1_m r : 0 <= shr_m r -> shr_m (shr_1 r) = shr_m r / 2.
Proof.
  destruct r as [m r s]. cbn [shr_m]. intros Hm.
  rewrite <- Z.div2_div. by destruct m as [|[p|p|]|p]; [..|lia].
Qed.

Lemma iter_shr_1_m p : forall r,
  0 <= shr_m r -> shr_m (iter_pos shr_1 p r) = shr_m r / 2 ^ Zpos p.
Proof.
  assert (Hdiv : forall m a b, 0 <= a -> 0 <= b ->
            m / 2 ^ a / 2 ^ b = m / 2 ^ (a + b)).
  { intros m a b Ha Hb. rewrite Z.pow_add_r by done.
    apply Z.div_div; [apply Z.pow_nonzero; lia | apply Z.pow_pos_nonneg; lia]. }
  assert (Hpos : forall m a, 0 <= m -> 0 <= a -> 0 <= m / 2 ^ a).
  { intros m a Hm Ha. apply Z.div_pos; [done|]. apply Z.pow_pos_nonneg; lia. }
  assert (Hhalf : forall r, 0 <= shr_m r -> 0 <= shr_m (shr_1 r)).
  { intros r Hr. rewrite shr_1_m by done. change 2 with (2 ^ 1). by apply Hpos. }
  induction p as [p IH|p IH|]; intros r Hr; cbn [iter_pos].
  - assert (H1 : 0 <= shr_m (shr_1 r)) by by apply Hhalf.
    assert (H2 : 0 <= shr_m (iter_pos shr_1 p (shr_1 r))).
    { rewrite IH by done. by apply Hpos. }
    rewrite (IH _ H2), (IH _ H1), shr_1_m by done.
    change (shr_m r / 2) with (shr_m r / 2 ^ 1). rewrite !Hdiv by lia.
    f_equal. f_equal. lia.
  - assert (H2 : 0 <= shr_m (iter_pos shr_1 p r)).
    { rewrite IH by done. by apply Hpos. }
    rewrite (IH _ H2), (IH _ Hr). rewrite !Hdiv by lia. f_equal. f_equal. lia.
  - by apply shr_1_m.
Qed.

Lemma shr_spec r e n r' e' :
  0 <= shr_m r -> shr r e n = (r', e') ->
  (n <= 0 /\ r' = r /\ e' = e)
  \/ (0 < n /\ shr_m r' = shr_m r / 2 ^ n /\ e' = e + n).
Proof.
  intros Hr. unfold shr. destruct n as [|p|p]; intros [= <- <-].
  - left. split_and!; [lia|done|done].
  - right. split; [lia|]. split; [by apply iter_shr_1_m|done].
  - left. split_and!; [lia|done|done].
Qed.

Lemma shr_m_of_loc m l : shr_m (shr_record_of_loc m l) = m.
Proof. by destruct l as [|[]]. Qed.

Lemma round_nearest_even_bounds m l :
  m <= round_nearest_even m l <= m + 1.
Proof. unfold round_nearest_even. destruct l as [|[]]; try destruct (Z.even m); lia. Qed.

(** *** Rounding does not overflow below the largest exponent *)

(** Rounding a non-negative mantissa of bounded size gives zero or a finite
    double, never an infinity or a NaN, and the exponent grows by no more
    than the rounding of the mantissa to 53 digits asks for. *)
Lemma binary_round_aux_bounded s m e l :
  0 <= m -> e <= 971 -> Zdigits2 m + e + 1 <= 1024 ->
  binary_round_aux prec emax s m e l = S754_zero s
  \/ exists m' e',
       binary_round_aux prec emax s m e l = S754_finite s m' e'
       /\ e' <= Z.max e (Z.max (Zdigits2 m + e - 52) (-1074)).
Proof.
  intros Hm He Hd. unfold binary_round_aux, shr_fexp.
  destruct (shr (shr_record_of_loc m l) e (fexp prec emax (Zdigits2 m + e) - e))
    as [r1 e1] eqn:H1.
  apply shr_spec in H1; [|by rewrite shr_m_of_loc].
  rewrite shr_m_of_loc in H1.
  pose proof (round_nearest_even_bounds (shr_m r1) (loc_of_shr_record r1)) as Hround.
  set (m1 := round_nearest_even (shr_m r1) (loc_of_shr_record r1)) in *.
  assert (Hfexp : forall k, fexp prec emax k = Z.max (k - 53) (-1074)) by done.
  rewrite Hfexp in H1.
  assert (Hr1 : 0 <= shr_m r1 /\ Zdigits2 (shr_m r1) + e1 <= Z.max (Zdigits2 m + e) e1
                /\ e1 <= Z.max e (Z.max (Zdigits2 m + e - 53) (-1074))).
  { destruct H1 as [(Hn & -> & ->)|(Hn & Hr1 & ->)].
    - rewrite shr_m_of_loc. lia.
    - rewrite Hr1. split; [apply Z.div_pos; [done|apply Z.pow_pos_nonneg; lia]|].
      pose proof (Zdigits2_div_pow2 m (Z.max (Zdigits2 m + e - 53) (-1074) - e) Hm ltac:(lia)).
      lia. }
  destruct Hr1 as (Hr1 & Hd1 & He1).
  assert (Hm1 : 0 <= m1) by lia.
  assert (Hdm1 : Zdigits2 m1 <= Zdigits2 (shr_m r1) + 1).
  { etrans; [apply (Zdigits2_le m1 (shr_m r1 + 1)); lia|]. by apply Zdigits2_succ. }
  destruct (shr (shr_record_of_loc m1 loc_Exact) e1 (fexp prec emax (Zdigits2 m1 + e1) - e1))
    as [r2 e2] eqn:H2.
  apply shr_spec in H2; [|done]. cbn [shr_record_of_loc shr_m] in H2.
  rewrite Hfexp in H2.
  assert (Hr2 : 0 <= shr_m r2 /\ e2 <= Z.max e (Z.max (Zdigits2 m + e - 52) (-1074))).
  { destruct H2 as [(Hn & -> & ->)|(Hn & Hr2 & ->)].
    - cbn [shr_m]. lia.
    - rewrite Hr2. split; [apply Z.div_pos; [done|apply Z.pow_pos_nonneg; lia]|]. lia. }
  destruct Hr2 as [Hr2 He2].
  destruct (shr_m r2) as [|p|p]; [by left| |lia].
  right. exists p, e2. split; [|done].
  rewrite (proj2 (Z.leb_le e2 (emax - prec))); [done|].
  change (emax - prec) with 971. lia.
Qed.

(** A mantissa of exactly 53 digits is not rounded. *)
Lemma binary_round_aux_exact s p e :
  Zpos (digits2_pos p) = 53 -> -1074 <= e <= 971 ->
  binary_round_aux prec emax s (Zpos p) e loc_Exact = S754_finite s p e.
Proof.
  intros Hd He.
  assert (Hshift : fexp prec emax (Zdigits2 (Zpos p) + e) - e = 0).
  { cbn [Zdigits2]. rewrite Hd. unfold fexp, SpecFloat.emin, prec, emax. lia. }
  unfold binary_round_aux, shr_fexp. rewrite Hshift.
  cbn [shr shr_record_of_loc shr_m loc_of_shr_record round_nearest_even].
  rewrite Hshift. cbn [shr shr_record_of_loc shr_m].
  rewrite (proj2 (Z.leb_le e (emax - prec))); [done|]. change (emax - prec) with 971. lia.
Qed.

(** *** Validity of the doubles *)

Lemma valid_finite s m e :
  valid_binary (S754_finite s m e) = true ->
  Zdigits2 (Zpos m) <= 53 /\ -1074 <= e <= 971.
Proof.
  cbn [SpecFloat.valid_binary]. unfold bounded, canonical_mantissa.
  rewrite andb_true_iff, Z.eqb_eq, Z.leb_le.
  unfold fexp, SpecFloat.emin, prec, emax. cbn [Zdigits2]. lia.
Qed.

Lemma Prim2SF_finite x s m e :
  Prim2SF x = S754_finite s m e -> Zdigits2 (Zpos m) <= 53 /\ -1074 <= e <= 971.
Proof. intros H. apply (valid_finite s). rewrite <- H. apply Prim2SF_valid. Qed.

(** *** Integers held in doubles *)

Lemma Prim2SF_of_uint63 z :
  Prim2SF (of_uint63 (Uint63.of_Z z)) = binary_normalize prec emax (z mod 2 ^ 63) 0 false.
Proof. by rewrite of_uint63_spec, Uint63.of_Z_spec. Qed.

Lemma shl_align_integer p :
  Zpos (digits2_pos p) <= 63 ->
  exists mz ez,
    shl_align p 0 (fexp prec emax (Zpos (digits2_pos p) + 0)) = (mz, ez)
    /\ -52 <= ez <= 0
    /\ Zpos (digits2_pos mz) + ez = Zpos (digits2_pos p)
    /\ (Zpos (digits2_pos p) <= 53 -> Zpos (digits2_pos mz) = 53).
Proof.
  intros Hd. unfold shl_align. rewrite Z.add_0_r, Z.sub_0_r.
  unfold fexp, SpecFloat.emin, prec, emax.
  destruct (Z.max (Zpos (digits2_pos p) - 53) (3 - 1024 - 53)) as [|k|k] eqn:Hk;
    eexists _, _; (split; [reflexivity|]); rewrite ?digits2_pos_iter; lia.
Qed.

(** A non-negative integer below 2^63 is held as zero or as a positive
    finite double. *)
Lemma binary_normalize_integer z :
  0 <= z < 2 ^ 63 ->
  binary_normalize prec emax z 0 false = S754_zero false
  \/ exists m e, binary_normalize prec emax z 0 false = S754_finite false m e.
Proof.
  intros [Hz Hlt]. destruct z as [|p|p]; [by left| |lia].
  cbn [binary_normalize]. unfold binary_round.
  assert (Hd : Zpos (digits2_pos p) <= 63).
  { change (Zpos (digits2_pos p)) with (Zdigits2 (Zpos p)).
    rewrite Zdigits2_log2 by lia.
    pose proof (proj1 (Z.log2_lt_pow2 (Zpos p) 63 ltac:(lia)) Hlt). lia. }
  destruct (shl_align_integer p Hd) as (mz & ez & -> & Hez & Hsum & _).
  destruct (binary_round_aux_bounded false (Zpos mz) ez loc_Exact)
    as [Hzero|(m & e & Hfin & _)]; [lia|lia|cbn [Zdigits2]; lia| |].
  - by left.
  - right. by exists m, e.
Qed.

(** A positive integer below 2^53 is held exactly: the mantissa has 53
    digits and the exponent lies in [-52, 0]. *)
Lemma binary_normalize_exact z :
  1 <= z < 2 ^ 53 ->
  exists m e,
    binary_normalize prec emax z 0 false = S754_finite false m e
    /\ Zpos (digits2_pos m) = 53 /\ -52 <= e <= 0.
Proof.
  intros [Hz Hlt]. destruct z as [|p|p]; [lia| |lia].
  cbn [binary_normalize]. unfold binary_round.
  assert (Hd : Zpos (digits2_pos p) <= 53).
  { change (Zpos (digits2_pos p)) with (Zdigits2 (Zpos p)).
    rewrite Zdigits2_log2 by lia.
    pose proof (proj1 (Z.log2_lt_pow2 (Zpos p) 53 ltac:(lia)) Hlt). lia. }
  destruct (shl_align_integer p ltac:(lia)) as (mz & ez & -> & Hez & Hsum & Hfull).
  exists mz, ez. rewrite binary_round_aux_exact; [|by apply Hfull|lia].
  split; [done|]. split; [by apply Hfull|lia].
Qed.

Lemma Number_finite z :
  (exists s, Prim2SF (Number z) = S754_zero s)
  \/ exists s m e, Prim2SF (Number z) = S754_finite s m e.
Proof.
  unfold Number. destruct (z <? 0).
  - rewrite opp_spec, Prim2SF_of_uint63.
    destruct (binary_normalize_integer ((- z) mod 2 ^ 63)) as [->|(m & e & ->)];
      [apply Z.mod_pos_bound; lia|left; by eexists|right; by eexists _, _, _].
  - rewrite Prim2SF_of_uint63.
    destruct (binary_normalize_integer (z mod 2 ^ 63)) as [->|(m & e & ->)];
      [apply Z.mod_pos_bound; lia|left; by eexists|right; by eexists _, _, _].
Qed.

Lemma Number_exact z :
  1 <= z < 2 ^ 53 ->
  exists m e,
    Prim2SF (Number z) = S754_finite false m e
    /\ Zpos (digits2_pos m) = 53 /\ -52 <= e <= 0.
Proof.
  intros Hz. unfold Number. rewrite (proj2 (Z.ltb_ge z 0)) by lia.
  rewrite Prim2SF_of_uint63, Z.mod_small by lia.
  by apply binary_normalize_exact.
Qed.

(** *** Division and multiplication of finite doubles *)

Lemma SFdiv_finite s1 m1 e1 s2 m2 e2 :
  e1 - e2 <= 971 -> Zdigits2 (Zpos m1) + e1 - e2 + 1 <= 1024 ->
  SF64div (S754_finite s1 m1 e1) (S754_finite s2 m2 e2) = S754_zero (xorb s1 s2)
  \/ exists m e,
       SF64div (S754_finite s1 m1 e1) (S754_finite s2 m2 e2)
       = S754_finite (xorb s1 s2) m e
       /\ e <= Z.max (e1 - e2) (Z.max (Zdigits2 (Zpos m1) + e1 - e2 - 52) (-1074)).
Proof.
  intros He Hd. unfold SF64div, SFdiv, SFdiv_core_binary.
  set (e' := Z.min (fexp prec emax (Zdigits2 (Zpos m1) + e1 - (Zdigits2 (Zpos m2) + e2)))
                   (e1 - e2)).
  assert (He' : e' <= e1 - e2) by (unfold e'; lia).
  set (m' := match e1 - e2 - e' with
             | 0 => Zpos m1
             | Zpos _ => Z.shiftl (Zpos m1) (e1 - e2 - e')
             | Zneg _ => 0
             end).
  assert (Hm' : 0 <= m' /\ Zdigits2 m' + e' <= Zdigits2 (Zpos m1) + e1 - e2).
  { unfold m'. destruct (e1 - e2 - e') as [|k|k] eqn:Hk; [lia| |lia].
    rewrite Zdigits2_shiftl by lia. split; [|lia].
    rewrite Z.shiftl_mul_pow2 by lia. pose proof (Z.pow_pos_nonneg 2 (Zpos k)). nia. }
  destruct Hm' as [Hm' Hdm'].
  pose proof (Z.div_eucl_eq m' (Zpos m2) ltac:(lia)) as Heucl.
  pose proof (Z.mod_pos_bound m' (Zpos m2) ltac:(lia)) as Hmod.
  unfold Z.modulo in Hmod.
  destruct (Z.div_eucl m' (Zpos m2)) as [q r].
  assert (Hq : 0 <= q <= m') by nia.
  pose proof (Zdigits2_le q m' Hq) as Hdq.
  destruct (binary_round_aux_bounded (xorb s1 s2) q e' (new_location (Zpos m2) r))
    as [Hzero|(m & e & Hfin & Hbound)]; [lia|lia|lia| |].
  - by left.
  - right. exists m, e. split; [done|]. lia.
Qed.

Lemma SFmul_finite s1 m1 e1 s2 m2 e2 :
  e1 + e2 <= 971 -> Zdigits2 (Zpos m1) + Zdigits2 (Zpos m2) + e1 + e2 + 1 <= 1024 ->
  SF64mul (S754_finite s1 m1 e1) (S754_finite s2 m2 e2) = S754_zero (xorb s1 s2)
  \/ exists m e,
       SF64mul (S754_finite s1 m1 e1) (S754_finite s2 m2 e2)
       = S754_finite (xorb s1 s2) m e.
Proof.
  intros He Hd. unfold SF64mul, SFmul.
  pose proof (Zdigits2_mul (Zpos m1) (Zpos m2) ltac:(lia) ltac:(lia)) as Hmul.
  change (Zpos m1 * Zpos m2) with (Zpos (m1 * m2)) in Hmul.
  destruct (binary_round_aux_bounded (xorb s1 s2) (Zpos (m1 * m2)) (e1 + e2) loc_Exact)
    as [Hzero|(m & e & Hfin & _)]; [lia|lia|lia| |].
  - by left.
  - right. by exists m, e.
Qed.

(** *** A finite double minus itself *)

Lemma SFsub_diag x :
  (exists s, x = S754_zero s) \/ (exists s m e, x = S754_finite s m e) ->
  SFabs (SF64sub x x) = S754_zero false.
Proof.
  intros [[s ->]|(s & m & e & ->)]; unfold SF64sub, SFsub.
  - by destruct s.
  - cbn zeta. by rewrite Z.sub_diag.
Qed.


(** *** The order of the doubles *)

Lemma SFltb_lt x y : SFltb x y = true <-> SFlt x y.
Proof.
  unfold SFltb, SFlt.
  destruct x as [[]|[]| |[] mx ex], y as [[]|[]| |[] my ey]; cbn;
    try (split; [discriminate | lia]); try (split; [intros _; lia | done]);
    try (split; [done | intros []]).
  - destruct (Z.compare_spec ex ey); cbn.
    + change (Pos.compare_cont Eq mx my) with (Pos.compare mx my).
      destruct (Pos.compare_spec mx my); cbn; split; (discriminate || lia || done).
    + split; (discriminate || lia || done).
    + split; (discriminate || lia || done).
  - destruct (Z.compare_spec ex ey); cbn.
    + change (Pos.compare_cont Eq mx my) with (Pos.compare mx my).
      destruct (Pos.compare_spec mx my); cbn; split; (discriminate || lia || done).
    + split; (discriminate || lia || done).
    + split; (discriminate || lia || done).
Qed.

Lemma SFleb_le x y : SFleb x y = true <-> SFle x y.
Proof.
  unfold SFleb, SFle.
  assert (Hpair : forall a b c a' b' c' : Z, (a, b, c) = (a', b', c') -> a = a' /\ b = b' /\ c = c')
    by (by intros ?????? [= -> -> ->]).
  destruct x as [[]|[]| |[] mx ex], y as [[]|[]| |[] my ey]; cbn;
    try destruct (Z.compare_spec ex ey); cbn;
    try change (Pos.compare_cont Eq mx my) with (Pos.compare mx my);
    try destruct (Pos.compare_spec mx my); cbn;
    (split;
     [ first [discriminate | done
             | intros _; first [by right | left; lia | right; by subst]]
     | first [done
             | intros [?|Hk]; first [done | exfalso; lia | apply Hpair in Hk; exfalso; lia
                                    | discriminate ]
             | intros Hk; contradiction Hk ] ]).
Qed.

Lemma SFeqb_number x : SFeqb x x = true <-> SFkey x <> None.
Proof.
  unfold SFeqb.
  destruct x as [[]|[]| |[] mx ex]; cbn; try done.
  - rewrite Z.compare_refl. change (Pos.compare_cont Eq mx mx) with (Pos.compare mx mx).
    by rewrite Pos.compare_refl.
  - rewrite Z.compare_refl. change (Pos.compare_cont Eq mx mx) with (Pos.compare mx mx).
    by rewrite Pos.compare_refl.
Qed.

Ltac key_order :=
  unfold SFlt, SFle, keyLt;
  repeat match goal with
         | |- context [SFkey ?x] => destruct (SFkey x) as [[[? ?] ?]|]
         end;
  intros; try done;
  repeat match goal with
         | H : _ \/ _ |- _ => destruct H
         | H : _ /\ _ |- _ => destruct H
         | H : (_, _) = (_, _) |- _ => injection H as -> -> ->
         end;
  try lia.

Lemma SFlt_trans x y z : SFlt x y -> SFlt y z -> SFlt x z.
Proof. key_order. Qed.

Lemma SFle_lt_trans x y z : SFle x y -> SFlt y z -> SFlt x z.
Proof. key_order. Qed.

Lemma SFlt_irrefl x : ~ SFlt x x.
Proof. key_order. Qed.

Lemma SFlt_total x y : SFkey x <> None -> SFkey y <> None -> SFlt x y \/ SFle y x.
Proof.
  unfold SFlt, SFle, keyLt.
  destruct (SFkey x) as [[[c1 e1] m1]|], (SFkey y) as [[[c2 e2] m2]|]; intros; try done.
  destruct (Z.lt_trichotomy c1 c2) as [?|[->|?]]; [lia| |lia].
  destruct (Z.lt_trichotomy e1 e2) as [?|[->|?]]; [lia| |lia].
  destruct (Z.lt_trichotomy m1 m2) as [?|[->|?]]; [lia| |lia].
  right. by right.
Qed.

Lemma SFle_total x y : SFkey x <> None -> SFkey y <> None -> SFle x y \/ SFlt y x.
Proof.
  unfold SFlt, SFle, keyLt.
  destruct (SFkey x) as [[[c1 e1] m1]|], (SFkey y) as [[[c2 e2] m2]|]; intros; try done.
  destruct (Z.lt_trichotomy c1 c2) as [?|[->|?]]; [lia| |lia].
  destruct (Z.lt_trichotomy e1 e2) as [?|[->|?]]; [lia| |lia].
  destruct (Z.lt_trichotomy m1 m2) as [?|[->|?]]; [lia| |lia].
  left. by right.
Qed.

(** *** The comparisons of doubles *)

Lemma float_ltb_lt (x y : float) : (x <? y)%float = true <-> SFlt (Prim2SF x) (Prim2SF y).
Proof. by rewrite ltb_spec, SFltb_lt. Qed.

Lemma float_leb_le (x y : float) : (x <=? y)%float = true <-> SFle (Prim2SF x) (Prim2SF y).
Proof. by rewrite leb_spec, SFleb_le. Qed.

Lemma eqb_number (x : float) : (x =? x)%float = true <-> SFkey (Prim2SF x) <> None.
Proof. by rewrite eqb_spec, SFeqb_number. Qed.

Lemma ltb_irrefl (x : float) : (x <? x)%float = false.
Proof. apply not_true_iff_false. rewrite float_ltb_lt. apply SFlt_irrefl. Qed.

Lemma ltb_trans (x y z : float) :
  (x <? y)%float = true -> (y <? z)%float = true -> (x <? z)%float = true.
Proof. rewrite !float_ltb_lt. apply SFlt_trans. Qed.

Lemma leb_ltb_trans (x y z : float) :
  (x <=? y)%float = true -> (y <? z)%float = true -> (x <? z)%float = true.
Proof. rewrite float_leb_le, !float_ltb_lt. apply SFle_lt_trans. Qed.

Lemma ltb_false_leb (x y : float) :
  (x =? x)%float = true -> (y =? y)%float = true ->
  (x <? y)%float = false -> (y <=? x)%float = true.
Proof.
  rewrite !eqb_number, float_leb_le. intros Hx Hy Hlt.
  destruct (SFlt_total _ _ Hx Hy) as [H|H]; [|done].
  apply float_ltb_lt in H. congruence.
Qed.

Lemma leb_false_ltb (x y : float) :
  (x =? x)%float = true -> (y =? y)%float = true ->
  (x <=? y)%float = false -> (y <? x)%float = true.
Proof.
  rewrite !eqb_number, float_ltb_lt. intros Hx Hy Hle.
  destruct (SFle_total _ _ Hx Hy) as [H|H]; [|done].
  apply float_leb_le in H. congruence.
Qed.

End Float64Proofs.

(** ** Angle matcher on doubles *)

Module DataProcessingDoubleProofs.
Import PrimFloat DataProcessingDouble Float64Proofs.
#[local] Set Warnings "-inexact-float".

Section Closest.
Variable angleArray : list float.
Variable targetAngle : float.
Local Abbreviation d := (angleDiff angleArray targetAngle).

Lemma closestLoop_minimal_double n : forall i c,
  (i + n = length angleArray)%nat -> (c < i)%nat ->
  (forall j, (j < i)%nat -> (d j <? d c)%float = false) ->
  (forall j, (j < c)%nat -> (d j <=? d c)%float = false) ->
  let r := closestLoop angleArray targetAngle i n c (d c) in
  (r < length angleArray)%nat
  /\ (forall j, (j < length angleArray)%nat -> (d j <? d r)%float = false)
  /\ (forall j, (j < r)%nat -> (d j <=? d r)%float = false).
Proof.
  induction n as [|n IH]; intros i c Hin Hc Hmin Hfirst; cbn [closestLoop].
  - cbn zeta. split_and!; [lia| |done]. intros j Hj. apply Hmin. lia.
  - destruct (d i <? d c)%float eqn:Hlt.
    + assert (Hbelow : forall j, (j < i)%nat -> (d j <=? d i)%float = false).
      { intros j Hj. apply not_true_iff_false. intros Hle.
        pose proof (leb_ltb_trans _ _ _ Hle Hlt) as H. rewrite Hmin in H by done. done. }
      apply IH; [lia|lia| |done].
      intros j Hj. destruct (decide (j = i)) as [->|Hne]; [apply ltb_irrefl|].
      apply not_true_iff_false. intros H.
      pose proof (ltb_trans _ _ _ H Hlt) as H'. rewrite Hmin in H' by lia. done.
    + apply IH; [lia|lia| |done].
      intros j Hj. destruct (decide (j = i)) as [->|Hne]; [done|].
      apply Hmin. lia.
Qed.
End Closest.

Lemma findClosestAngleIndex_nonempty_double angleArray targetAngle :
  angleArray <> [] ->
  findClosestAngleIndex angleArray targetAngle
  = match findIndex (fun angle => (abs (angle - targetAngle) <? tolerance)%float) angleArray with
    | Some exactIndex => exactIndex
    | None => closestLoop angleArray targetAngle 1 (length angleArray - 1) 0
                          (angleDiff angleArray targetAngle 0)
    end.
Proof. by destruct angleArray. Qed.

Lemma angleDiff_lookup_double angleArray targetAngle i a :
  angleArray !! i = Some a ->
  angleDiff angleArray targetAngle i = abs (a - targetAngle)%float.
Proof. intros H. unfold angleDiff. by rewrite H. Qed.

(** C7: on a non-empty array of doubles findClosestAngleIndex returns an
    index r of the array, the differences |angles[i] - target| and the
    comparisons being the double-precision ones the code computes. Either r
    is the first index whose difference is below 1e-6; or no difference is
    below 1e-6 and r is the earliest index of minimal difference: no
    difference is smaller than that of r, and no earlier difference is as
    small (when no difference is NaN: the difference of r is at most every
    difference and smaller than every earlier one). On [0,30,60,90] it
    returns 1 for 29, 1 for 30.0000001 (found by the exact-match scan) and 1
    for 45. *)
Theorem findClosestAngleIndex_closest :
  (forall (angles : list float) (target : float),
     angles <> [] ->
     let d := angleDiff angles target in
     let r := findClosestAngleIndex angles target in
     (r < length angles)%nat
     /\ (((d r <? tolerance)%float = true
          /\ forall j, (j < r)%nat -> (d j <? tolerance)%float = false)
         \/ ((forall j, (j < length angles)%nat -> (d j <? tolerance)%float = false)
             /\ (forall j, (j < length angles)%nat -> (d j <? d r)%float = false)
             /\ (forall j, (j < r)%nat -> (d j <=? d r)%float = false)
             /\ ((forall j, (j < length angles)%nat -> (d j =? d j)%float = true) ->
                 (forall j, (j < length angles)%nat -> (d r <=? d j)%float = true)
                 /\ (forall j, (j < r)%nat -> (d r <? d j)%float = true)))))
  /\ findClosestAngleIndex exampleAngles 29 = 1%nat
  /\ findClosestAngleIndex exampleAngles 30.0000001 = 1%nat
  /\ findIndex (fun angle => (abs (angle - 30.0000001) <? tolerance)%float) exampleAngles
     = Some 1%nat
  /\ findClosestAngleIndex exampleAngles 45 = 1%nat.
Proof.
  split; [|by vm_compute].
  intros angles target Hne d r. subst r. rewrite findClosestAngleIndex_nonempty_double by done.
  assert (Hpos : (0 < length angles)%nat) by (destruct angles; [done | cbn; lia]).
  destruct (findIndex (fun angle => (abs (angle - target) <? tolerance)%float) angles)
    as [exactIndex|] eqn:Hfind.
  - apply DataProcessingProofs.findIndex_Some in Hfind as [(a & Ha & Hpa) Hbefore].
    split; [by eapply lookup_lt_Some|]. left. split.
    + subst d. cbn beta. by rewrite (angleDiff_lookup_double _ _ _ _ Ha).
    + intros j Hj.
      destruct (lookup_lt_is_Some_2 angles j) as [b Hb].
      { apply lookup_lt_Some in Ha. lia. }
      subst d. cbn beta. rewrite (angleDiff_lookup_double _ _ _ _ Hb). by apply (Hbefore j b).
  - pose proof (DataProcessingProofs.findIndex_None _ _ Hfind) as Hnone. cbn beta in Hnone.
    destruct (closestLoop_minimal_double angles target (length angles - 1) 1 0)
      as (Hr & Hmin & Hfirst).
    + lia.
    + lia.
    + intros j Hj. replace j with 0%nat by lia. apply ltb_irrefl.
    + intros j Hj. lia.
    + cbn zeta in Hr, Hmin, Hfirst.
      set (r := closestLoop angles target 1 (length angles - 1) 0
                  (angleDiff angles target 0)) in *.
      split; [done|]. right. split_and!; [|done|done|].
      * intros j Hj. destruct (lookup_lt_is_Some_2 angles j Hj) as [b Hb].
        subst d. cbn beta. rewrite (angleDiff_lookup_double _ _ _ _ Hb). by apply (Hnone j b).
      * intros Hnum. split.
        -- intros j Hj. apply ltb_false_leb; [by apply Hnum..|]. by apply Hmin.
        -- intros j Hj. apply leb_false_ltb; [apply Hnum; lia|by apply Hnum|].
           by apply Hfirst.
Qed.

(** The tie between 30 and 60 for the target 45. *)
Lemma findClosestAngleIndex_closest_witness :
  (findClosestAngleIndex exampleAngles 45 < length exampleAngles)%nat
  /\ findClosestAngleIndex exampleAngles 45 = 1%nat.
Proof.
  destruct (proj1 findClosestAngleIndex_closest exampleAngles 45%float)
    as [Hr _]; [discriminate|].
  split; [exact Hr | reflexivity].
Defined.

(** Differences are compared after rounding: -3 and 3 are equally far from
    2^-60 once the subtraction has rounded, and 90 and 0 equally far from
    the single-precision value -3.4028226550889045e38, so the earlier index
    wins both times. *)
Example findClosestAngleIndex_rounded_tie :
  findClosestAngleIndex [-3; 3]%float 0x1p-60 = 0%nat
  /\ findClosestAngleIndex [90; 0]%float (-3.4028226550889045e38) = 0%nat.
Proof. by vm_compute. Qed.

End DataProcessingDoubleProofs.

(** ** Coordinate mapper on doubles *)

Module ClickableImageDoubleProofs.
Import PrimFloat SpecFloat FloatOps FloatAxioms Float64 Float64Proofs ClickableImageDouble.
#[local] Set Warnings "-inexact-float".

Lemma withinImage_true_double img relX relY :
  withinImage img relX relY = true <->
  ((0 <=? relX)%float = true /\ (relX <=? Number (offsetWidth img))%float = true)
  /\ ((0 <=? relY)%float = true /\ (relY <=? Number (offsetHeight img))%float = true).
Proof. unfold withinImage. rewrite !andb_true_iff. tauto. Qed.

(** A position that passes the bounds test on an axis is zero or a positive
    finite double whose exponent is at most that of the display size. *)
Lemma within_axis (x : float) (offset : Z) :
  (0 <=? x)%float = true -> (x <=? Number offset)%float = true ->
  (exists s, Prim2SF x = S754_zero s)
  \/ (exists m e mo eo,
        Prim2SF x = S754_finite false m e
        /\ Prim2SF (Number offset) = S754_finite false mo eo /\ e <= eo).
Proof.
  rewrite !float_leb_le. change (Prim2SF 0) with (S754_zero false).
  unfold SFle. cbn [SFkey].
  destruct (Number_finite offset) as [[so ->]|([] & mo & eo & ->)]; cbn [SFkey];
    destruct (Prim2SF x) as [s|[]| |[] m e]; cbn [SFkey]; unfold keyLt;
    intros H0 H1; try done;
    try (left; by eexists);
    try (destruct H0 as [?|[=]]; lia);
    try (destruct H1 as [?|[=]]; lia).
  right. exists m, e, mo, eo. split_and!; [done|done|].
  destruct H1 as [?|[= -> ->]]; lia.
Qed.

Lemma within_axis_finite (x : float) (offset : Z) :
  (0 <=? x)%float = true -> (x <=? Number offset)%float = true ->
  (exists s, Prim2SF x = S754_zero s) \/ (exists s m e, Prim2SF x = S754_finite s m e).
Proof.
  intros H0 H1. destruct (within_axis x offset H0 H1) as [?|(m & e & _ & _ & ? & _)];
    [by left|right; by eexists _, _, _].
Qed.

(** The scaled position of a click within the image is a finite number. *)
Lemma scaled_finite (x : float) (natural offset : Z) :
  (0 <=? x)%float = true -> (x <=? Number offset)%float = true ->
  1 <= natural < 2 ^ 53 -> 1 <= offset < 2 ^ 53 ->
  exists q, valueOf (x * (Number natural / Number offset))%float = Some q.
Proof.
  intros H0 H1 Hn Ho.
  destruct (Number_exact natural Hn) as (m1 & e1 & HN & Hd1 & He1).
  destruct (Number_exact offset Ho) as (m2 & e2 & HO & Hd2 & He2).
  assert (Hscale :
    Prim2SF (Number natural / Number offset)%float = S754_zero false
    \/ exists ms es, Prim2SF (Number natural / Number offset)%float
                      = S754_finite false ms es
                      /\ es <= 53 /\ Zdigits2 (Zpos ms) <= 53).
  { rewrite div_spec, HN, HO.
    destruct (SFdiv_finite false m1 e1 false m2 e2) as [Hz|(ms & es & Hfin & Hes)];
      [lia|cbn [Zdigits2]; lia|by left|].
    right. exists ms, es. split; [done|]. cbn [Zdigits2] in Hes. split; [lia|].
    apply (Prim2SF_finite (Number natural / Number offset) false ms es).
    by rewrite div_spec, HN, HO. }
  unfold valueOf. rewrite mul_spec.
  destruct (within_axis x offset H0 H1) as [[s ->]|(m & e & mo & eo & Hx & HO' & Hle)].
  - destruct Hscale as [->|(ms & es & -> & _)]; by eexists.
  - assert (eo = e2) as -> by congruence.
    pose proof (Prim2SF_finite x false m e Hx) as [Hdx _]. rewrite Hx.
    destruct Hscale as [->|(ms & es & -> & Hes & Hds)]; [by eexists|].
    destruct (SFmul_finite false m e false ms es) as [->|(mp & ep & ->)];
      [lia|lia|by eexists..].
Qed.

(** [Math.round] of a finite number is the nearest integer, a tie going up. *)
Lemma Math_round_nearest_integer (x : float) (q : Q) :
  valueOf x = Some q ->
  exists n, Math_round x = RInt n /\ (inject_Z n - (1 # 2) <= q < inject_Z n + (1 # 2))%Q.
Proof.
  unfold valueOf, Math_round.
  destruct (Prim2SF x) as [s|s| |s m e]; cbn [SFvalue]; intros [= <-].
  - exists 0. split; [done|]. split; [by vm_compute | by vm_compute].
  - eexists. split; [reflexivity|].
    set (q := (inject_Z (cond_Zopp s (Z.pos m)) * 2 ^ e)%Q).
    pose proof (Qfloor_le (q + (1 # 2))) as Hle.
    pose proof (Qlt_floor (q + (1 # 2))) as Hlt.
    rewrite inject_Z_plus in Hlt. change (inject_Z 1) with 1%Q in Hlt.
    split; lra.
Qed.

(** One axis of the mapping. *)
Lemma toNatural_axis (x : float) (natural offset : Z) :
  (0 <=? x)%float = true -> (x <=? Number offset)%float = true ->
  1 <= natural < 2 ^ 53 -> 1 <= offset < 2 ^ 53 ->
  exists (q : Q) (n : Z),
    valueOf (x * (Number natural / Number offset))%float = Some q
    /\ (inject_Z n - (1 # 2) <= q < inject_Z n + (1 # 2))%Q
    /\ clamp (toNatural x natural offset) natural
       = Some (Z.max 0 (Z.min n (natural - 1))).
Proof.
  intros H0 H1 Hn Ho.
  destruct (scaled_finite x natural offset H0 H1 Hn Ho) as [q Hq].
  destruct (Math_round_nearest_integer _ q Hq) as (n & Hround & Hnear).
  exists q, n. split; [done|]. split; [done|].
  unfold toNatural. cbn zeta. by rewrite Hround.
Qed.

(** C9 (as the code has it): for a click that passes the bounds test
    ([0, displayWidth] x [0, displayHeight], edges included), on an image
    with at least one native pixel and at least one displayed pixel per axis
    (the upper bounds are those of the DOM's long and unsigned long), the
    position scaled in double precision, relative * (natural / display), is
    a finite number on each axis; the native coordinate is the integer
    nearest to it (a tie going up) clamped to [0, natural - 1], and so lies
    in [0, naturalWidth-1] x [0, naturalHeight-1]; it is what
    handleImageClick stores in the marker and passes to onImageClick unless
    the click clears the marker. *)
Theorem handleImageClick_native_in_range
    (img : ImageElement) (container : Container)
    (clickPosition : option Marker) (e : MouseEvent) :
  let relX := relativeX img container e in
  let relY := relativeY img container e in
  let scaledX := (relX * (Number (naturalWidth img) / Number (offsetWidth img)))%float in
  let scaledY := (relY * (Number (naturalHeight img) / Number (offsetHeight img)))%float in
  withinImage img relX relY = true ->
  1 <= offsetWidth img <= 2147483647 -> 1 <= offsetHeight img <= 2147483647 ->
  1 <= naturalWidth img <= 4294967295 -> 1 <= naturalHeight img <= 4294967295 ->
  exists (qx qy : Q) (nx ny x y : Z),
    valueOf scaledX = Some qx /\ valueOf scaledY = Some qy
    /\ (inject_Z nx - (1 # 2) <= qx < inject_Z nx + (1 # 2))%Q
    /\ (inject_Z ny - (1 # 2) <= qy < inject_Z ny + (1 # 2))%Q
    /\ x = Z.max 0 (Z.min nx (naturalWidth img - 1))
    /\ y = Z.max 0 (Z.min ny (naturalHeight img - 1))
    /\ 0 <= x <= naturalWidth img - 1
    /\ 0 <= y <= naturalHeight img - 1
    /\ handleImageClick (Some img) (Some container) clickPosition e
       = if nearMarker clickPosition relX relY
         then (None, Some OnImageClickNull)
         else let newPosition := {| displayX := relX; displayY := relY;
                                    naturalX := Some x; naturalY := Some y |} in
              (Some newPosition, Some (OnImageClick (Some x) (Some y) newPosition)).
Proof.
  intros relX relY scaledX scaledY Hin Hw Hh Hnw Hnh.
  pose proof Hin as Hin'. apply withinImage_true_double in Hin' as [[HX0 HX1] [HY0 HY1]].
  destruct (toNatural_axis relX (naturalWidth img) (offsetWidth img))
    as (qx & nx & Hqx & Hnx & Hcx); [done|done|lia|lia|].
  destruct (toNatural_axis relY (naturalHeight img) (offsetHeight img))
    as (qy & ny & Hqy & Hny & Hcy); [done|done|lia|lia|].
  exists qx, qy, nx, ny. eexists _, _.
  split; [exact Hqx|]. split; [exact Hqy|]. split; [exact Hnx|]. split; [exact Hny|].
  split; [reflexivity|]. split; [reflexivity|].
  split; [apply ClickableImageProofs.clamp_in_range; lia|]. split; [apply ClickableImageProofs.clamp_in_range; lia|].
  unfold handleImageClick. fold relX relY. by rewrite Hin, Hcx, Hcy.
Qed.

(** The click on the bottom right corner maps to a native pixel. *)
Lemma handleImageClick_native_in_range_witness :
  exists x y,
    0 <= x <= 680 /\ 0 <= y <= 680
    /\ handleImageClick (Some exampleImage) (Some exampleContainer) None cornerClick
       = (Some {| displayX := 400; displayY := 400;
                  naturalX := Some x; naturalY := Some y |},
          Some (OnImageClick (Some x) (Some y)
                  {| displayX := 400; displayY := 400;
                     naturalX := Some x; naturalY := Some y |})).
Proof.
  destruct (handleImageClick_native_in_range exampleImage exampleContainer None cornerClick)
    as (qx & qy & nx & ny & x & y & _ & _ & _ & _ & _ & _ & Hx & Hy & Hrun).
  - reflexivity.
  - cbn. lia.
  - cbn. lia.
  - cbn. lia.
  - cbn. lia.
  - exists x, y. split; [exact Hx|]. split; [exact Hy|]. exact Hrun.
Defined.

(** The scaled position of the middle of the image shown at 312 x 312 is
    the double 5990139348123647 * 2^-44, just below 340.5. *)
Example valueOf_scaled_middle :
  valueOf (156 * (Number 681 / Number 312))%float
  = Some (inject_Z 5990139348123647 * 2 ^ (-44))%Q.
Proof. reflexivity. Qed.

(** The corner maps to the last native pixel. *)
Example handleImageClick_last_pixel :
  handleImageClick (Some exampleImage) (Some exampleContainer) None cornerClick
  = (Some {| displayX := 400; displayY := 400;
             naturalX := Some 680; naturalY := Some 680 |},
     Some (OnImageClick (Some 680) (Some 680)
             {| displayX := 400; displayY := 400;
                naturalX := Some 680; naturalY := Some 680 |})).
Proof. reflexivity. Qed.

(** The product is rounded before [Math.round] sees it: 156 * (681 / 312)
    is 340.49999999999994 in double precision, and the coordinate is 340. *)
Example handleImageClick_rounding :
  handleImageClick (Some narrowImage) (Some exampleContainer) None middleClick
  = (Some {| displayX := 156; displayY := 156;
             naturalX := Some 340; naturalY := Some 340 |},
     Some (OnImageClick (Some 340) (Some 340)
             {| displayX := 156; displayY := 156;
                naturalX := Some 340; naturalY := Some 340 |})).
Proof. reflexivity. Qed.

(** C9 (as stated) fails where an axis has no native pixel or no displayed
    pixel. A click within the layout box of an image that has no natural
    size is answered with the coordinate (0, 0), which is not in the empty
    range [0, -1]; a click on the corner of an image laid out with size 0
    divides by zero, and the coordinate is NaN on both axes. *)
Lemma handleImageClick_outside_native_range :
  (withinImage brokenImage (relativeX brokenImage exampleContainer exampleClick)
                           (relativeY brokenImage exampleContainer exampleClick) = true
   /\ snd (handleImageClick (Some brokenImage) (Some exampleContainer) None exampleClick)
      = Some (OnImageClick (Some 0) (Some 0)
                {| displayX := 100; displayY := 50;
                   naturalX := Some 0; naturalY := Some 0 |})
   /\ ~ (0 <= 0 <= naturalWidth brokenImage - 1))
  /\ (withinImage collapsedImage (relativeX collapsedImage exampleContainer originClick)
                              (relativeY collapsedImage exampleContainer originClick) = true
      /\ snd (handleImageClick (Some collapsedImage) (Some exampleContainer) None originClick)
         = Some (OnImageClick None None
                   {| displayX := 0; displayY := 0;
                      naturalX := None; naturalY := None |})).
Proof.
  split; (split; [reflexivity|]); [split; [reflexivity|]|reflexivity].
  cbn. lia.
Qed.

(** *** Toggle *)

(** A finite position is at distance 0 from itself. *)
Lemma near_self (x : float) :
  (exists s, Prim2SF x = S754_zero s) \/ (exists s m e, Prim2SF x = S754_finite s m e) ->
  (abs (x - x) <? 10)%float = true.
Proof.
  intros Hx. rewrite ltb_spec, abs_spec, sub_spec.
  rewrite SFsub_diag.
  - reflexivity.
  - destruct Hx as [[s ->]|(s & m & e & ->)]; [left; by eexists|right; by eexists _, _, _].
Qed.

(** C10: a click that passes the bounds test and whose position is less
    than 10 pixels from the marker's display position on both axes, the
    distances |marker - click| being the double-precision ones the code
    computes, clears the marker and calls onImageClick(null, null, null).
    Hence, from no marker, three clicks at one position within the image
    give a marker at that position, then no marker, then the first marker
    again. *)
Theorem handleImageClick_toggle
    (img : ImageElement) (container : Container) (e : MouseEvent) :
  let relX := relativeX img container e in
  let relY := relativeY img container e in
  let click := fun clickPosition =>
    handleImageClick (Some img) (Some container) clickPosition e in
  withinImage img relX relY = true ->
  (forall m : Marker,
     (abs (displayX m - relX) <? 10)%float = true ->
     (abs (displayY m - relY) <? 10)%float = true ->
     click (Some m) = (None, Some OnImageClickNull))
  /\ exists m,
       displayX m = relX /\ displayY m = relY
       /\ fst (click None) = Some m
       /\ fst (click (fst (click None))) = None
       /\ fst (click (fst (click (fst (click None))))) = Some m.
Proof.
  intros relX relY click Hin.
  assert (Hclear : forall m : Marker,
            (abs (displayX m - relX) <? 10)%float = true ->
            (abs (displayY m - relY) <? 10)%float = true ->
            click (Some m) = (None, Some OnImageClickNull)).
  { intros m Hx Hy. unfold click, handleImageClick. fold relX relY.
    rewrite Hin. unfold nearMarker. by rewrite Hx, Hy. }
  split; [exact Hclear|].
  pose proof Hin as Hin'. apply withinImage_true_double in Hin' as [[HX0 HX1] [HY0 HY1]].
  pose proof (near_self relX (within_axis_finite _ _ HX0 HX1)) as HnearX.
  pose proof (near_self relY (within_axis_finite _ _ HY0 HY1)) as HnearY.
  assert (Hnew : exists m, displayX m = relX /\ displayY m = relY
                           /\ fst (click None) = Some m).
  { unfold click, handleImageClick. fold relX relY. rewrite Hin. cbn.
    eexists. split_and!; [| |reflexivity]; reflexivity. }
  destruct Hnew as (m & Hmx & Hmy & Hfirst).
  exists m. split_and!; [done|done|done| |].
  - rewrite Hfirst, Hclear; [done| |]; by rewrite ?Hmx, ?Hmy.
  - rewrite Hfirst, Hclear; [done| |]; by rewrite ?Hmx, ?Hmy.
Qed.

(** Three clicks at (100, 50) on the example image. *)
Lemma handleImageClick_toggle_witness :
  exists m,
    fst (handleImageClick (Some exampleImage) (Some exampleContainer) None exampleClick)
    = Some m
    /\ handleImageClick (Some exampleImage) (Some exampleContainer) (Some m) exampleClick
       = (None, Some OnImageClickNull).
Proof.
  destruct (handleImageClick_toggle exampleImage exampleContainer exampleClick)
    as (Hclear & m & Hmx & Hmy & Hfirst & _).
  - reflexivity.
  - exists m. split; [exact Hfirst|].
    apply Hclear; rewrite ?Hmx, ?Hmy; reflexivity.
Defined.

(** The distance is the rounded one: a marker at 0.1 and a click at 10.1
    are 10.0 apart in double precision, which is not below 10, and the
    click replaces the marker. *)
Example handleImageClick_rounded_distance :
  fst (handleImageClick (Some exampleImage) (Some exampleContainer)
         (Some {| displayX := 0.1; displayY := 10;
                  naturalX := Some 0; naturalY := Some 17 |})
         {| clientX := 10.1; clientY := 10 |})
  = Some {| displayX := 10.1; displayY := 10;
            naturalX := Some 17; naturalY := Some 17 |}.
Proof. reflexivity. Qed.

End ClickableImageDoubleProofs.

(** * Further properties of the code *)

(** ** Geo cube: decoding, lookup and failure *)

Module GeoCubeLoaderExtra.
Import GeoCubeLoader GeoCubeLoaderProofs GeoCubeFile.

Lemma byteAt_range view k : 0 <= byteAt view k < 256.
Proof.
  unfold byteAt. destruct (view !! k) as [b|]; [|lia].
  pose proof (Byte.to_N_bounded b). lia.
Qed.

(** The four bytes of a slot are the base-256 digits of its 32-bit pattern. *)
Lemma littleEndian32_digits (view : ArrayBuffer) (byteOffset : nat) :
  let v := littleEndian32 view byteOffset in
  0 <= v < 2 ^ 32
  /\ v mod 256 = byteAt view byteOffset
  /\ (v / 2 ^ 8) mod 256 = byteAt view (byteOffset + 1)
  /\ (v / 2 ^ 16) mod 256 = byteAt view (byteOffset + 2)
  /\ v / 2 ^ 24 = byteAt view (byteOffset + 3).
Proof.
  cbn zeta. unfold littleEndian32.
  pose proof (byteAt_range view byteOffset) as H0.
  pose proof (byteAt_range view (byteOffset + 1)) as H1.
  pose proof (byteAt_range view (byteOffset + 2)) as H2.
  pose proof (byteAt_range view (byteOffset + 3)) as H3.
  set (b0 := byteAt view byteOffset) in *.
  set (b1 := byteAt view (byteOffset + 1)) in *.
  set (b2 := byteAt view (byteOffset + 2)) in *.
  set (b3 := byteAt view (byteOffset + 3)) in *.
  change (2 ^ 8) with 256. change (2 ^ 16) with (256 * 256).
  change (2 ^ 24) with (256 * 256 * 256). change (2 ^ 32) with 4294967296.
  split_and!; [lia|lia| | | |].
  - replace (b0 + b1 * 256 + b2 * (256 * 256) + b3 * (256 * 256 * 256))
      with (b0 + (b1 + b2 * 256 + b3 * (256 * 256)) * 256) by lia.
    rewrite Z.mod_add by lia. apply Z.mod_small. lia.
  - replace (b0 + b1 * 256 + b2 * (256 * 256) + b3 * (256 * 256 * 256))
      with (b0 + (b1 + (b2 + b3 * 256) * 256) * 256) by lia.
    rewrite Z.div_add, (Z.div_small b0), Z.add_0_l by lia.
    rewrite Z.mod_add by lia. apply Z.mod_small. lia.
  - replace (b0 + b1 * 256 + b2 * (256 * 256) + b3 * (256 * 256 * 256))
      with ((b0 + b1 * 256) + (b2 + b3 * 256) * (256 * 256)) by lia.
    rewrite Z.div_add, (Z.div_small (b0 + b1 * 256)), Z.add_0_l by lia.
    rewrite Z.mod_add by lia. apply Z.mod_small. lia.
  - replace (b0 + b1 * 256 + b2 * (256 * 256) + b3 * (256 * 256 * 256))
      with ((b0 + b1 * 256 + b2 * (256 * 256)) + b3 * (256 * 256 * 256)) by lia.
    rewrite Z.div_add, Z.div_small by lia. lia.
Qed.

(** A read that fits in the view does not throw, and what it returns keeps
    the slot unless the slot holds a NaN: the value is either the pattern of
    a number, which lies in [0, 2^32) and whose k-th base-256 digit is byte k
    of the slot, or it is NaN and the exponent bits of the slot are all set
    with a fraction that is not zero. *)
Theorem getFloat32_keeps_bytes (view : ArrayBuffer) (byteOffset : nat) :
  Z.of_nat byteOffset + 4 <= byteLength view ->
  (exists pattern,
     getFloat32 view byteOffset = Returns (Bits32 pattern)
     /\ isNaN32 pattern = false
     /\ 0 <= pattern < 2 ^ 32
     /\ pattern mod 256 = byteAt view byteOffset
     /\ (pattern / 2 ^ 8) mod 256 = byteAt view (byteOffset + 1)
     /\ (pattern / 2 ^ 16) mod 256 = byteAt view (byteOffset + 2)
     /\ pattern / 2 ^ 24 = byteAt view (byteOffset + 3))
  \/ (getFloat32 view byteOffset = Returns NaN32
      /\ isNaN32 (littleEndian32 view byteOffset) = true).
Proof.
  intros Hfit. rewrite getFloat32_fits by done. unfold float32OfBits.
  destruct (isNaN32 (littleEndian32 view byteOffset)) eqn:Hnan.
  - by right.
  - left. exists (littleEndian32 view byteOffset).
    split; [done|]. split; [done|]. apply littleEndian32_digits.
Qed.

Lemma getFloat32_keeps_bytes_witness :
  exists pattern,
    getFloat32 [Byte.x00; Byte.x00; Byte.x80; Byte.x3f] 0 = Returns (Bits32 pattern)
    /\ pattern / 2 ^ 24 = 0x3f.
Proof.
  destruct (getFloat32_keeps_bytes [Byte.x00; Byte.x00; Byte.x80; Byte.x3f] 0)
    as [(pattern & Hrun & _ & _ & _ & _ & _ & Hb3)|[Hnan _]].
  - vm_compute. discriminate.
  - exists pattern. split; [exact Hrun | exact Hb3].
  - vm_compute in Hnan. discriminate Hnan.
Defined.

Lemma cubeIndex_roundtrip_witness :
  cubeIndex 680 0 7 mod 681 = 680
  /\ (cubeIndex 680 0 7 / 681) mod 681 = 0
  /\ cubeIndex 680 0 7 / (681 * 681) = 7.
Proof. apply (cubeIndex_roundtrip 680 0 7); lia. Defined.

(** Coordinates outside the cube read the nearest edge: the lookup only
    depends on the clamped coordinate. *)
Theorem getGeoValue_clamped (data : list float32) (x y band : Z) :
  getGeoValue data x y band
  = getGeoValue data (Z.max 0 (Z.min x 680)) (Z.max 0 (Z.min y 680))
                     (Z.max 0 (Z.min band 8)).
Proof.
  assert (Hidx : cubeIndex (Z.max 0 (Z.min x 680)) (Z.max 0 (Z.min y 680))
                          (Z.max 0 (Z.min band 8)) = cubeIndex x y band).
  { assert (Hidem : forall v hi, 0 <= hi ->
              Z.max 0 (Z.min (Z.max 0 (Z.min v hi)) hi) = Z.max 0 (Z.min v hi))
      by (intros; lia).
    unfold cubeIndex, numSamples, numLines, numBands.
    change (681 - 1) with 680. change (9 - 1) with 8.
    by rewrite !Hidem by lia. }
  by rewrite !getGeoValue_lookup, Hidx.
Qed.

(** A lookup is null exactly when the array has no element at the computed
    index, that is when the array ends at or before it; an array with at
    least 9*681*681 elements never gives null. *)
Theorem getGeoValue_null_iff (data : list float32) (x y band : Z) :
  (getGeoValue data x y band = None <-> Z.of_nat (length data) <= cubeIndex x y band)
  /\ (totalElements <= Z.of_nat (length data) -> is_Some (getGeoValue data x y band)).
Proof.
  pose proof (cubeIndex_bounds x y band) as Hb. rewrite getGeoValue_lookup. split.
  - rewrite lookup_ge_None. lia.
  - intros Hlen. apply lookup_lt_is_Some. lia.
Qed.

Lemma getGeoValue_null_iff_witness :
  is_Some (getGeoValue (replicate (Z.to_nat totalElements) (Bits32 0)) 680 680 8).
Proof.
  apply getGeoValue_null_iff. rewrite length_replicate.
  pose proof totalElements_eq. lia.
Defined.

(** Decoding then looking up: on a buffer of at least 9*681*681*4 bytes the
    decoder returns an array in which every lookup, whatever x, y and band,
    finds the single-precision value of the four bytes at offset
    4 * (band*681*681 + y*681 + x) (on clamped coordinates), least
    significant first: NaN when the four bytes are a NaN, the number of that
    pattern otherwise; no lookup is null. *)
Theorem parseGeoCube_then_getGeoValue (buffer : ArrayBuffer) :
  9 * 681 * 681 * 4 <= byteLength buffer ->
  exists data,
    parseGeoCube buffer = Returns data
    /\ forall x y band,
         let bits := littleEndian32 buffer (Z.to_nat (cubeIndex x y band) * 4) in
         getGeoValue data x y band
         = Some (if isNaN32 bits then NaN32 else Bits32 bits).
Proof.
  intros Hlen. pose proof totalElements_eq as Htot.
  destruct (parseLoop_returns buffer (Z.to_nat totalElements)
              (replicate (Z.to_nat totalElements) (Bits32 0)) 0)
    as (data & Hrun & _ & Hnew & _); [lia|].
  exists data. split; [exact Hrun|]. intros x y band. cbn zeta.
  rewrite getGeoValue_lookup. pose proof (cubeIndex_bounds x y band).
  apply Hnew; [lia|]. rewrite length_replicate. lia.
Qed.

Lemma parseGeoCube_then_getGeoValue_witness :
  exists data,
    parseGeoCube oversizedBuffer = Returns data
    /\ getGeoValue data 10 20 6
       = Some (float32OfBits
                 (littleEndian32 oversizedBuffer (Z.to_nat (cubeIndex 10 20 6) * 4))).
Proof.
  destruct (parseGeoCube_then_getGeoValue oversizedBuffer) as (data & Hrun & Hget).
  - unfold oversizedBuffer. rewrite byteLength_replicate; lia.
  - exists data. split; [exact Hrun | apply Hget].
Defined.

Lemma parseGeoCube_long buffer :
  9 * 681 * 681 * 4 <= byteLength buffer -> exists data, parseGeoCube buffer = Returns data.
Proof.
  intros Hlen. pose proof totalElements_eq as Htot.
  destruct (parseLoop_returns buffer (Z.to_nat totalElements)
              (replicate (Z.to_nat totalElements) (Bits32 0)) 0)
    as (data & Hrun & _); [lia|].
  by exists data.
Qed.

Lemma parseGeoCube_short buffer :
  byteLength buffer < 9 * 681 * 681 * 4 -> parseGeoCube buffer = Throws RangeError.
Proof.
  intros H. pose proof totalElements_eq. unfold parseGeoCube.
  apply parseLoop_throws; lia.
Qed.

Lemma geoErrorObject_fields e x y :
  let obj := geoErrorObject e x y in
  obj !! "error" = Some (VStr (errorMessage e))
  /\ obj !! "x" = Some (VInt x) /\ obj !! "y" = Some (VInt y)
  /\ forall k, k ∈ ["lat"; "lon"; "phase"; "incidence"; "emis"] -> obj !! k = Some VNull.
Proof.
  cbn zeta. unfold geoErrorObject. split_and!; [by simplify_map_eq..|].
  intros k Hk. set_unfold in Hk.
  destruct Hk as [->|[->|[->|[->|[->|[]]]]]]; by simplify_map_eq.
Qed.

(** The reading is all or nothing. extractGeoValues never throws; the object
    it returns either has no error key and numbers in all of lat, lon, phase,
    incidence and emis, which happens exactly when the fetch delivered at
    least 9*681*681*4 bytes, or it has an error message and null in all five.
    x and y are copied in both cases. *)
Theorem extractGeoValues_all_or_nothing (fetched : outcome ArrayBuffer) (x y : Z) :
  let obj := extractGeoValues fetched x y in
  obj !! "x" = Some (VInt x) /\ obj !! "y" = Some (VInt y)
  /\ (((exists buffer, fetched = Returns buffer
                       /\ 9 * 681 * 681 * 4 <= byteLength buffer)
       /\ obj !! "error" = None
       /\ forall k, k ∈ ["lat"; "lon"; "phase"; "incidence"; "emis"] ->
                    exists a, obj !! k = Some (VFloat32 a))
      \/ ((forall buffer, fetched = Returns buffer ->
                          byteLength buffer < 9 * 681 * 681 * 4)
          /\ (exists message, obj !! "error" = Some (VStr message))
          /\ forall k, k ∈ ["lat"; "lon"; "phase"; "incidence"; "emis"] ->
                       obj !! k = Some VNull)).
Proof.
  cbn zeta. destruct fetched as [buffer|e].
  - destruct (Z_lt_le_dec (byteLength buffer) (9 * 681 * 681 * 4)) as [Hshort|Hlong].
    + unfold extractGeoValues. cbn [bind]. rewrite parseGeoCube_short by done.
      cbn [bind tryCatch].
      destruct (geoErrorObject_fields RangeError x y) as (He & Hx & Hy & Hnull).
      split_and!; [done|done|]. right. split_and!; [|by eexists|done].
      by intros b [= <-].
    + destruct (parseGeoCube_long buffer Hlong) as (data & Hrun).
      pose proof (extractGeoValues_populated buffer data x y Hrun) as Hpop.
      unfold extractGeoValues in *. cbn [bind] in *. rewrite Hrun in *.
      cbn [bind tryCatch] in *.
      split_and!; [unfold geoValuesObject; by simplify_map_eq..|].
      left. split_and!; [by exists buffer| |done].
      unfold geoValuesObject. by simplify_map_eq.
  - unfold extractGeoValues. cbn [bind tryCatch].
    destruct (geoErrorObject_fields e x y) as (He & Hx & Hy & Hnull).
    split_and!; [done|done|]. right. split_and!; [done|by eexists|done].
Qed.

(** A fetch that answers with a status that is not ok gives the reading of
    nulls whose error message names that status; only the URL of the geo cube
    of the rounded, zero-padded phase angle is fetched. *)
Theorem extractGeoValuesAt_not_ok
    (fetch : string -> outcome BinaryResponse) (phaseAngle : number)
    (response : BinaryResponse) (x y : Z) :
  fetch ("/assets/raw/2012_A0.1_p" +:+ ImageLoader.formatPhaseAngle phaseAngle
         +:+ "_geo.img") = Returns response ->
  ok response = false ->
  extractGeoValuesAt fetch phaseAngle x y
  = geoErrorObject (Error ("Failed to load geo cube: " +:+ pretty (status response))) x y.
Proof.
  intros Hfetch Hok. unfold extractGeoValuesAt, loadGeoCubeFile, geoCubeUrl.
  cbn zeta.
  change (fetch _) with (fetch ("/assets/raw/2012_A0.1_p"
            +:+ ImageLoader.formatPhaseAngle phaseAngle +:+ "_geo.img")).
  rewrite Hfetch. cbn [bind]. rewrite Hok. reflexivity.
Qed.

Lemma extractGeoValuesAt_not_ok_witness :
  extractGeoValuesAt
    (fun _ => Returns {| ok := false; status := 404; arrayBuffer := [] |}) 0%Q 1 2
  !! "error" = Some (VStr "Failed to load geo cube: 404").
Proof.
  rewrite (extractGeoValuesAt_not_ok _ 0%Q
             {| ok := false; status := 404; arrayBuffer := [] |} 1 2);
    [|reflexivity..].
  reflexivity.
Defined.

End GeoCubeLoaderExtra.

(** ** Spectral library: distinct angles, point budget, load-once cache *)

Module DataLoaderExtra.
Import DataLoader DataLoaderProofs.

Local Abbreviation addUnique :=
  (fun (seen : list number) (a : number) =>
     if existsb (Qeq_bool a) seen then seen else seen ++ [a]).

Lemma existsb_Qeq a seen :
  existsb (Qeq_bool a) seen = true <-> exists b, b ∈ seen /\ (a == b)%Q.
Proof.
  rewrite existsb_exists. split; intros (b & Hb & Hab); exists b.
  - split; [by apply list_elem_of_In | by apply Qeq_bool_iff].
  - split; [by apply list_elem_of_In | by apply Qeq_bool_iff].
Qed.

Lemma pairwiseDistinct_snoc seen a :
  pairwiseDistinct seen -> (forall b, b ∈ seen -> ~ (a == b)%Q) ->
  pairwiseDistinct (seen ++ [a]).
Proof.
  intros Hseen Ha i j x y Hij Hi Hj.
  apply lookup_app_Some in Hj as [Hj|[Hlen Hj]].
  - rewrite lookup_app_l in Hi by (apply lookup_lt_Some in Hj; lia).
    by apply (Hseen i j).
  - apply list_lookup_singleton_Some in Hj as [Hj0 <-].
    rewrite lookup_app_l in Hi by lia.
    intros Hxy. apply (Ha x); [by eapply list_elem_of_lookup_2|by symmetry].
Qed.

Lemma uniqueValues_fold l : forall seen,
  pairwiseDistinct seen ->
  let r := foldl addUnique seen l in
  pairwiseDistinct r
  /\ (exists tail, r = seen ++ tail /\ tail `sublist_of` l)
  /\ forall a, a ∈ seen \/ a ∈ l -> exists b, b ∈ r /\ (a == b)%Q.
Proof.
  induction l as [|a l IH]; intros seen Hseen; cbn [foldl].
  - cbn zeta. split_and!; [done| |].
    + exists []. by rewrite app_nil_r.
    + intros x [Hx|Hx]; [|by apply elem_of_nil in Hx]. exists x. split; [done|reflexivity].
  - destruct (existsb (Qeq_bool a) seen) eqn:Hex.
    + destruct (IH seen Hseen) as (Hd & (tail & Hr & Hsub) & Hcov).
      cbn zeta in *. split_and!; [done| |].
      * exists tail. split; [done|]. by apply sublist_cons.
      * intros x [Hx|Hx]; [apply Hcov; by left|].
        apply elem_of_cons in Hx as [->|Hx]; [|apply Hcov; by right].
        apply existsb_Qeq in Hex as (b & Hb & Hab).
        exists b. split; [|done]. rewrite Hr. apply elem_of_app. by left.
    + assert (Hnew : forall b, b ∈ seen -> ~ (a == b)%Q).
      { intros b Hb Hab. apply not_true_iff_false in Hex. apply Hex.
        apply existsb_Qeq. by exists b. }
      destruct (IH (seen ++ [a]) (pairwiseDistinct_snoc seen a Hseen Hnew))
        as (Hd & (tail & Hr & Hsub) & Hcov).
      cbn zeta in *. split_and!; [done| |].
      * exists (a :: tail). split; [by rewrite Hr, <- app_assoc|]. by apply sublist_skip.
      * intros x [Hx|Hx].
        -- apply Hcov. left. apply elem_of_app. by left.
        -- apply elem_of_cons in Hx as [->|Hx]; [|apply Hcov; by right].
           apply Hcov. left. apply elem_of_app. right. by apply list_elem_of_singleton.
Qed.

Lemma pairwiseDistinct_nil : pairwiseDistinct [].
Proof. intros i j a b _ Hi. by rewrite lookup_nil in Hi. Qed.

Lemma uniqueValues_pairwiseDistinct arr : pairwiseDistinct (uniqueValues arr).
Proof.
  pose proof (uniqueValues_fold (default [] arr) [] pairwiseDistinct_nil) as H.
  cbn zeta in H. apply H.
Qed.

Lemma uniqueValues_snoc l a :
  uniqueValues (Some (l ++ [a])) = addUnique (uniqueValues (Some l)) a.
Proof.
  unfold uniqueValues. change (default [] (Some (l ++ [a]))) with (l ++ [a]).
  change (default [] (Some l)) with l. by rewrite foldl_app.
Qed.

Lemma firstOccurrence_app_l l a i x :
  (i < length l)%nat -> firstOccurrence (l ++ [a]) i x <-> firstOccurrence l i x.
Proof.
  intros Hi. unfold firstOccurrence, number in *. rewrite lookup_app_l by done.
  split; intros [Hx Hfirst]; (split; [done|]); intros j c Hj Hc.
  - apply (Hfirst j c Hj). rewrite lookup_app_l; [done|lia].
  - apply (Hfirst j c Hj). rewrite lookup_app_l in Hc; [done|lia].
Qed.

Lemma uniqueValues_positions l :
  let r := uniqueValues (Some l) in
  exists positions : list nat,
    length positions = length r
    /\ (forall k k' i i', (k < k')%nat ->
          positions !! k = Some i -> positions !! k' = Some i' -> (i < i')%nat)
    /\ (forall k i, positions !! k = Some i ->
          exists a, r !! k = Some a /\ firstOccurrence l i a)
    /\ (forall i a, firstOccurrence l i a -> i ∈ positions)
    /\ (forall i a, l !! i = Some a -> exists b, b ∈ r /\ (a == b)%Q).
Proof.
  unfold number in *. induction l as [|a l IH] using rev_ind; cbn zeta.
  - exists []. split_and!; try done. intros i a [Hi _]. by rewrite lookup_nil in Hi.
  - destruct IH as (positions & Hlen & Hsorted & Hfirst & Hall & Hcov).
    assert (Hlt : forall k i, positions !! k = Some i -> (i < length l)%nat).
    { intros k i Hk. destruct (Hfirst k i Hk) as (x & _ & Hx & _).
      by apply lookup_lt_Some in Hx. }
    rewrite uniqueValues_snoc. unfold number in *.
    destruct (existsb (Qeq_bool a) (uniqueValues (Some l))) eqn:Hex.
    + exists positions. split_and!; [done|done| | |].
      * intros k i Hk. destruct (Hfirst k i Hk) as (x & Hr & Hx).
        exists x. split; [done|]. apply firstOccurrence_app_l; [by eapply Hlt|done].
      * intros i x Hx. destruct (decide (i < length l)%nat) as [Hi|Hi].
        { apply (Hall i x). by apply (firstOccurrence_app_l l a). }
        exfalso. destruct Hx as [Hx Hno].
        assert (i = length l) as ->.
        { apply lookup_lt_Some in Hx. rewrite length_app in Hx. cbn in Hx. lia. }
        rewrite list_lookup_middle in Hx by done. injection Hx as <-.
        apply existsb_Qeq in Hex as (b & Hb & Hab).
        apply list_elem_of_lookup in Hb as [k Hk].
        destruct (lookup_lt_is_Some_2 positions k) as [i0 Hi0].
        { rewrite Hlen. by eapply lookup_lt_Some. }
        destruct (Hfirst k i0 Hi0) as (b' & Hb' & Hocc & _).
        assert (b' = b) as -> by congruence.
        apply (Hno i0 b); [by eapply Hlt| |by symmetry].
        by apply lookup_app_l_Some.
      * intros i x Hx. apply lookup_app_Some in Hx as [Hx|[_ Hx]]; [by eapply Hcov|].
        apply list_lookup_singleton_Some in Hx as [_ <-]. by apply existsb_Qeq.
    + assert (Hnew : forall b, b ∈ uniqueValues (Some l) -> ~ (a == b)%Q).
      { intros b Hb Hab. apply not_true_iff_false in Hex. apply Hex.
        apply existsb_Qeq. by exists b. }
      exists (positions ++ [length l]). split_and!.
      * by rewrite !length_app, Hlen.
      * intros k k' i i' Hkk Hk Hk'.
        apply lookup_app_Some in Hk' as [Hk'|[Hge Hk']].
        -- rewrite lookup_app_l in Hk by (apply lookup_lt_Some in Hk'; lia).
           by apply (Hsorted k k').
        -- apply list_lookup_singleton_Some in Hk' as [Hk0 <-].
           rewrite lookup_app_l in Hk by lia. by eapply Hlt.
      * intros k i Hk. apply lookup_app_Some in Hk as [Hk|[Hge Hk]].
        -- destruct (Hfirst k i Hk) as (x & Hr & Hx). exists x. split.
           ++ by apply lookup_app_l_Some.
           ++ apply firstOccurrence_app_l; [by eapply Hlt|done].
        -- apply list_lookup_singleton_Some in Hk as [Hk0 <-].
           assert (k = length positions) as -> by lia.
           exists a. split; [rewrite Hlen; by apply list_lookup_middle|].
           split; [by apply list_lookup_middle|].
           intros j c Hj Hc Hca. rewrite lookup_app_l in Hc by done.
           destruct (Hcov j c Hc) as (b & Hb & Hcb).
           apply (Hnew b Hb). by rewrite <- Hca.
      * intros i x Hx. apply elem_of_app.
        destruct (decide (i < length l)%nat) as [Hi|Hi].
        -- left. apply (Hall i x). by apply (firstOccurrence_app_l l a).
        -- right. destruct Hx as [Hx _]. apply lookup_lt_Some in Hx.
           rewrite length_app in Hx. cbn in Hx.
           assert (i = length l) as -> by lia. by apply list_elem_of_singleton.
      * intros i x Hx. apply lookup_app_Some in Hx as [Hx|[_ Hx]].
        -- destruct (Hcov i x Hx) as (b & Hb & Hxb). exists b. split; [|done].
           apply elem_of_app. by left.
        -- apply list_lookup_singleton_Some in Hx as [_ <-]. exists a.
           split; [|reflexivity]. apply elem_of_app. right. by apply list_elem_of_singleton.
Qed.

(** The angle axes after sampling: uniqueValues keeps one representative of
    every number of the array and no number twice, and it keeps them in the
    order of first occurrence: the result is a subsequence of the array whose
    k-th entry is the k-th entry of the array that equals no entry before
    it, and every such entry of the array is kept. For [30, 0, 30] this
    leaves [30, 0] and nothing else. *)
Theorem uniqueValues_distinct (arr : option (list number)) :
  pairwiseDistinct (uniqueValues arr)
  /\ uniqueValues arr `sublist_of` default [] arr
  /\ (forall a, a ∈ default [] arr -> exists b, b ∈ uniqueValues arr /\ (a == b)%Q)
  /\ exists positions : list nat,
       length positions = length (uniqueValues arr)
       /\ (forall k k' i i', (k < k')%nat ->
             positions !! k = Some i -> positions !! k' = Some i' -> (i < i')%nat)
       /\ (forall k i, positions !! k = Some i ->
             exists a, uniqueValues arr !! k = Some a
                       /\ firstOccurrence (default [] arr) i a)
       /\ (forall i a, firstOccurrence (default [] arr) i a -> i ∈ positions).
Proof.
  pose proof (uniqueValues_fold (default [] arr) [] pairwiseDistinct_nil) as H.
  cbn zeta in H.
  change (foldl _ [] (default [] arr)) with (uniqueValues arr) in H.
  destruct H as (Hd & (tail & Hr & Hsub) & Hcov).
  split_and!; [done| | |].
  - by rewrite Hr.
  - intros a Ha. apply Hcov. by right.
  - destruct (uniqueValues_positions (default [] arr))
      as (positions & Hlen & Hsorted & Hfirst & Hall & _).
    change (uniqueValues (Some (default [] arr))) with (uniqueValues arr) in *.
    by exists positions.
Qed.

Example uniqueValues_order :
  uniqueValues (Some [30; 0; 30]%Q) = [30; 0]%Q.
Proof. reflexivity. Qed.

Lemma uniqueValues_id l : forall seen,
  pairwiseDistinct (seen ++ l) -> foldl addUnique seen l = seen ++ l.
Proof.
  induction l as [|a l IH]; intros seen Hd; cbn [foldl]; [by rewrite app_nil_r|].
  destruct (existsb (Qeq_bool a) seen) eqn:Hex.
  - exfalso. apply existsb_Qeq in Hex as (b & Hb & Hab).
    apply list_elem_of_lookup in Hb as [i Hi].
    apply (Hd i (length seen) b a).
    + by apply lookup_lt_Some in Hi.
    + by apply lookup_app_l_Some.
    + by rewrite list_lookup_middle.
    + by symmetry.
  - rewrite IH; [by rewrite <- app_assoc|]. by rewrite <- app_assoc.
Qed.

(** Reducing an axis to its distinct values a second time changes nothing. *)
Lemma uniqueValues_idempotent arr :
  uniqueValues (Some (uniqueValues arr)) = uniqueValues arr.
Proof.
  change (uniqueValues (Some (uniqueValues arr)))
    with (foldl addUnique [] (uniqueValues arr)).
  apply (uniqueValues_id (uniqueValues arr) []).
  apply uniqueValues_pairwiseDistinct.
Qed.

Lemma sampleWavelength_no_append (w : list number) maxPoints :
  0 < maxPoints <= Z.of_nat (length w) ->
  sampleWavelength w maxPoints
  = everyStep w (Some (Z.to_nat (Z.max 1 (Z.of_nat (length w) / maxPoints)))).
Proof.
  intros Hmp. pose proof (everyStep_count w maxPoints Hmp) as Hcount.
  unfold sampleWavelength.
  destruct (Z.ltb_spec (Z.of_nat (length (everyStep w (samplingStep (length w) maxPoints))))
              maxPoints) as [Hlt|_]; [lia|].
  cbn [andb]. by rewrite samplingStep_finite by lia.
Qed.

Lemma sampleWavelength_short (w : list number) maxPoints :
  (0 < length w)%nat -> Z.of_nat (length w) < maxPoints ->
  sampleWavelength w maxPoints = w ++ option_list (last w)
  /\ length (sampleWavelength w maxPoints) = S (length w).
Proof.
  intros Hpos Hlt.
  assert (Hstep : samplingStep (length w) maxPoints = Some 1%nat).
  { rewrite samplingStep_finite by lia. rewrite Z.div_small by lia. done. }
  assert (Hsw : sampleWavelength w maxPoints = w ++ option_list (last w)).
  { unfold sampleWavelength. rewrite Hstep, everyStep_1.
    destruct (Z.ltb_spec (Z.of_nat (length w)) maxPoints); [|lia].
    destruct (Nat.ltb_spec 0 (length w)); [done|lia]. }
  split; [done|]. rewrite Hsw, length_app.
  destruct (last w) as [x|] eqn:Hlast; cbn; [lia|].
  apply last_None in Hlast. subst w. cbn in Hpos. lia.
Qed.

Lemma sampleWavelength_count (w : list number) (maxPoints : Z) :
  0 < maxPoints <= Z.of_nat (length w) ->
  maxPoints <= Z.of_nat (length (sampleWavelength w maxPoints)) < 2 * maxPoints.
Proof.
  intros Hmp. pose proof (everyStep_count w maxPoints Hmp) as Hcount.
  rewrite samplingStep_finite in Hcount by lia.
  rewrite sampleWavelength_no_append by done.
  set (s := Z.to_nat (Z.max 1 (Z.of_nat (length w) / maxPoints))) in *.
  set (c := length (everyStep w (Some s))) in *.
  split; [done|].
  assert (Hq : 1 <= Z.of_nat (length w) / maxPoints)
    by (apply Z.div_le_lower_bound; lia).
  assert (Hs : Z.of_nat s = Z.of_nat (length w) / maxPoints) by (unfold s; lia).
  assert (Hs1 : (1 <= s)%nat) by lia.
  assert (Hup : Z.of_nat (length w) < (Z.of_nat s + 1) * maxPoints).
  { rewrite Hs. pose proof (Z.mul_succ_div_gt (Z.of_nat (length w)) maxPoints). lia. }
  assert (Hprev : ((c - 1) * s < length w)%nat).
  { pose proof (everyStep_length_le w s (c - 1) Hs1) as H. fold c in H. lia. }
  destruct (decide (s = 1%nat)) as [Hone|Hmany].
  - pose proof (proj2 (everyStep_length_le w s (length w) Hs1)) as H. fold c in H. nia.
  - destruct (decide (maxPoints = 1)) as [Hmp1|Hmp2].
    + pose proof (proj2 (everyStep_length_le w s 1 Hs1)) as H. fold c in H. nia.
    + destruct (Z_lt_le_dec (Z.of_nat c) (2 * maxPoints)) as [|Hge]; [done|].
      exfalso.
      assert (H1 : (2 * maxPoints - 1) * Z.of_nat s <= Z.of_nat ((c - 1) * s)) by nia.
      assert (H2 : maxPoints + Z.of_nat s <= maxPoints * Z.of_nat s) by nia.
      nia.
Qed.

(** The point budget is kept only loosely: a library with at least maxPoints
    wavelengths is sampled down to at least maxPoints and fewer than
    2 * maxPoints wavelengths, each of them an original wavelength at a
    multiple of the step. *)
Theorem sampleWavelength_budget (w : list number) (maxPoints : Z) :
  0 < maxPoints <= Z.of_nat (length w) ->
  maxPoints <= Z.of_nat (length (sampleWavelength w maxPoints)) < 2 * maxPoints
  /\ forall k, sampleWavelength w maxPoints !! k
               = w !! (k * Z.to_nat (Z.of_nat (length w) / maxPoints))%nat.
Proof.
  intros Hmp. split; [by apply sampleWavelength_count|].
  intros k. rewrite sampleWavelength_no_append by done.
  assert (Hq : 1 <= Z.of_nat (length w) / maxPoints)
    by (apply Z.div_le_lower_bound; lia).
  rewrite Z.max_r by done. apply everyStep_lookup. lia.
Qed.

Lemma sampleWavelength_budget_witness :
  4 <= Z.of_nat (length (sampleWavelength (positions 12) 4)) < 2 * 4.
Proof. apply (proj1 (sampleWavelength_budget (positions 12) 4 ltac:(cbn; lia))). Defined.

Lemma sampleSpectralArray_again step table :
  sampleSpectralArray (Some 1%nat) (Some (sampleSpectralArray step table))
  = sampleSpectralArray step table.
Proof.
  unfold sampleSpectralArray at 1. destruct table as [rows|]; [|done].
  unfold sampleSpectralArray. rewrite <- list_fmap_compose.
  apply list_fmap_ext. intros i [values|] _; cbn; by rewrite ?everyStep_1.
Qed.

(** Sampling a library that has at least maxPoints wavelengths is idempotent:
    sampling the sampled library again with the same budget returns it
    unchanged (the second step is 1 and nothing is appended). *)
Theorem sampleData_idempotent (data : SpectralData) (w : list number) (maxPoints : Z) :
  wavelength data = Some w ->
  0 < maxPoints <= Z.of_nat (length w) ->
  sampleData (sampleData data maxPoints) maxPoints = sampleData data maxPoints.
Proof.
  intros Hw Hmp. pose proof (sampleWavelength_count w maxPoints Hmp) as Hbudget.
  set (w' := sampleWavelength w maxPoints) in *.
  assert (Hstep' : samplingStep (length w') maxPoints = Some 1%nat).
  { rewrite samplingStep_finite by lia.
    replace (Z.of_nat (length w') / maxPoints) with 1; [done|].
    apply (Z.div_unique _ _ 1 (Z.of_nat (length w') - maxPoints)); lia. }
  assert (Hw' : sampleWavelength w' maxPoints = w').
  { rewrite sampleWavelength_no_append by lia.
    rewrite <- samplingStep_finite, Hstep' by lia. apply everyStep_1. }
  unfold sampleData at 1. rewrite (sampleData_wavelength data w) by done.
  fold w'. rewrite Hstep', Hw'.
  unfold sampleData. rewrite Hw. cbn [inc emi daz standard no_ch4 no_haze].
  by rewrite !uniqueValues_idempotent, !sampleSpectralArray_again.
Qed.

Lemma sampleData_idempotent_witness :
  let library := {| wavelength := Some (positions 12);
                    standard := Some [Some (positions 12); None];
                    no_ch4 := None; no_haze := Some [];
                    inc := Some [0; 30; 0]%Q; emi := None; daz := Some []%Q |} in
  sampleData (sampleData library 4) 4 = sampleData library 4.
Proof.
  cbn zeta. apply (sampleData_idempotent _ (positions 12)); [reflexivity | cbn; lia].
Defined.

(** Sampling a library that has fewer wavelengths than maxPoints is not
    idempotent: each application appends the last wavelength once more, so
    two applications lengthen the axis of N wavelengths to N + 2 whenever
    N + 1 is still below maxPoints. *)
Theorem sampleData_twice_short_library (data : SpectralData) (w : list number)
    (maxPoints : Z) :
  wavelength data = Some w ->
  (0 < length w)%nat ->
  Z.of_nat (length w) + 1 < maxPoints ->
  exists w1 w2,
    wavelength (sampleData data maxPoints) = Some w1
    /\ wavelength (sampleData (sampleData data maxPoints) maxPoints) = Some w2
    /\ length w1 = S (length w) /\ length w2 = S (S (length w)).
Proof.
  intros Hw Hpos Hlt.
  destruct (sampleWavelength_short w maxPoints Hpos) as [_ Hlen1]; [lia|].
  set (w1 := sampleWavelength w maxPoints) in *.
  destruct (sampleWavelength_short w1 maxPoints) as [_ Hlen2]; [lia|lia|].
  exists w1, (sampleWavelength w1 maxPoints). split_and!; [|..|lia].
  - by apply sampleData_wavelength.
  - apply sampleData_wavelength. by apply sampleData_wavelength.
  - done.
Qed.

Lemma sampleData_twice_short_library_witness :
  exists w1 w2,
    wavelength (sampleData shortLibrary 100) = Some w1
    /\ wavelength (sampleData (sampleData shortLibrary 100) 100) = Some w2
    /\ length w1 = 4%nat /\ length w2 = 5%nat.
Proof.
  apply (sampleData_twice_short_library shortLibrary [1; 2; 3]%Q 100);
    [reflexivity | cbn; lia | cbn; lia].
Defined.

(** *** The cache of loadJsonFile *)

(** Load once: when a call returns data, that data is what the cache then
    holds for the URL (other URLs are untouched), and every later call for
    the URL returns the very same data without changing the cache, whatever
    the network, the parser or the memory gauge would answer: a library is
    fetched, parsed and sampled at most once. *)
Theorem loadJsonFile_load_once
    (fetch : string -> outcome Response) (JSON_parse : string -> outcome SpectralData)
    (usedMB : option Z) (dataCache dataCache' : gmap string SpectralData)
    (url : string) (data : SpectralData) :
  loadJsonFile fetch JSON_parse usedMB dataCache url = (Returns data, dataCache') ->
  dataCache' !! url = Some data
  /\ (forall other, other <> url -> dataCache' !! other = dataCache !! other)
  /\ forall fetch' JSON_parse' usedMB',
       loadJsonFile fetch' JSON_parse' usedMB' dataCache' url = (Returns data, dataCache').
Proof.
  unfold loadJsonFile. intros H.
  assert (Hcached : dataCache' !! url = Some data
                    /\ forall other, other <> url ->
                                     dataCache' !! other = dataCache !! other).
  { destruct (dataCache !! url) as [cached|] eqn:Hhit.
    - inversion H; subst. done.
    - destruct (loadAndParse fetch JSON_parse usedMB url) as [d|e]; inversion H; subst.
      split; [by rewrite lookup_insert_eq|].
      intros other Hne. by rewrite lookup_insert_ne. }
  destruct Hcached as [Hurl Hother]. split_and!; [done|done|].
  intros fetch' JSON_parse' usedMB'. by rewrite Hurl.
Qed.

Lemma loadJsonFile_load_once_witness :
  let fetch := fun _ : string => Returns {| ok := true; status := 200; text := "{}" |} in
  let parse := fun _ : string => Returns shortLibrary in
  exists dataCache',
    loadJsonFile fetch parse None ∅ "/data/init_gui_library.json"
    = (Returns (sampleData shortLibrary 100), dataCache')
    /\ loadJsonFile (fun _ => Throws (Error "offline")) parse None dataCache'
         "/data/init_gui_library.json"
       = (Returns (sampleData shortLibrary 100), dataCache').
Proof.
  cbn zeta.
  exists (<["/data/init_gui_library.json" := sampleData shortLibrary 100]> ∅).
  split; [reflexivity|].
  apply (loadJsonFile_load_once
           (fun _ => Returns {| ok := true; status := 200; text := "{}" |})
           (fun _ => Returns shortLibrary) None ∅).
  reflexivity.
Defined.

(** A failed load is not cached: when a call throws, the URL was not in the
    cache and the cache is left exactly as it was, so the next call fetches
    again. *)
Theorem loadJsonFile_failure_not_cached
    (fetch : string -> outcome Response) (JSON_parse : string -> outcome SpectralData)
    (usedMB : option Z) (dataCache dataCache' : gmap string SpectralData)
    (url : string) (e : jsError) :
  loadJsonFile fetch JSON_parse usedMB dataCache url = (Throws e, dataCache') ->
  dataCache' = dataCache /\ dataCache !! url = None.
Proof.
  unfold loadJsonFile. intros H.
  destruct (dataCache !! url) as [cached|]; [by inversion H|].
  destruct (loadAndParse fetch JSON_parse usedMB url); by inversion H.
Qed.

Lemma loadJsonFile_failure_not_cached_witness :
  let fetch := fun _ : string => Returns {| ok := false; status := 404; text := "" |} in
  loadJsonFile fetch (fun _ => Returns shortLibrary) None ∅ "/data/missing.json"
  = (Throws (Error "HTTP error! status: 404"), ∅).
Proof.
  cbn zeta.
  assert (H : loadJsonFile
                (fun _ => Returns {| ok := false; status := 404; text := "" |})
                (fun _ => Returns shortLibrary) None ∅ "/data/missing.json"
              = (Throws (Error "HTTP error! status: 404"), ∅)) by reflexivity.
  destruct (loadJsonFile_failure_not_cached _ _ _ _ _ _ _ H) as [_ _].
  exact H.
Defined.

End DataLoaderExtra.

(** ** Angle combinations and the row they select *)

Module DataProcessingExtra.
Import DataLoader DataProcessing DataProcessingProofs.

Section Blocks.
Context {A : Type} (f : nat -> list A) (L : nat).
Hypothesis block : forall i, length (f i) = L.

Lemma flat_map_seq_length n : forall start,
  length (flat_map f (seq start n)) = (n * L)%nat.
Proof.
  induction n as [|n IH]; intros start; cbn [seq flat_map]; [done|].
  rewrite length_app, IH, block. lia.
Qed.

Lemma flat_map_seq_lookup n : forall start i r,
  (i < n)%nat -> (r < L)%nat ->
  flat_map f (seq start n) !! (i * L + r)%nat = f (start + i)%nat !! r.
Proof.
  induction n as [|n IH]; intros start i r Hi Hr; [lia|].
  cbn [seq flat_map]. destruct i as [|i].
  - rewrite lookup_app_l by (rewrite block; lia). by rewrite Nat.add_0_r.
  - rewrite lookup_app_r by (rewrite block; lia).
    replace (S i * L + r - length (f start))%nat with (i * L + r)%nat
      by (rewrite block; lia).
    rewrite IH by lia. by replace (S start + i)%nat with (start + S i)%nat by lia.
Qed.
End Blocks.

Lemma map_seq_lookup {A : Type} (g : nat -> A) n k :
  (k < n)%nat -> map g (seq 0 n) !! k = Some (g k).
Proof.
  intros Hk. change (map g (seq 0 n)) with (g <$> seq 0 n).
  rewrite list_lookup_fmap, lookup_seq_lt by done. done.
Qed.

Lemma angleCombinations_lookup inc emi daz i j k :
  (i < length inc)%nat -> (j < length emi)%nat -> (k < length daz)%nat ->
  angleCombinations inc emi daz !! (i * length emi * length daz + j * length daz + k)%nat
  = Some {| incidence := default 0%Q (inc !! i);
            emission := default 0%Q (emi !! j);
            azimuth := default 0%Q (daz !! k);
            index := (i * length emi * length daz + j * length daz + k)%nat |}.
Proof.
  intros Hi Hj Hk. unfold angleCombinations.
  replace (i * length emi * length daz + j * length daz + k)%nat
    with (i * (length emi * length daz) + (j * length daz + k))%nat at 1 by lia.
  rewrite (flat_map_seq_lookup _ (length emi * length daz)); [| |done|nia].
  - rewrite (flat_map_seq_lookup _ (length daz)); [| |done|done].
    + by rewrite map_seq_lookup.
    + intros j'. by rewrite length_map, length_seq.
  - intros i'. rewrite (flat_map_seq_length _ (length daz)); [done|].
    intros j'. by rewrite length_map, length_seq.
Qed.

(** processSpectralData lists the angle combinations in row-major order:
    there are len(inc) * len(emi) * len(daz) of them and the combination at
    position r of the list carries the index r. *)
Theorem angleCombinations_row_major (inc emi daz : list number) :
  length (angleCombinations inc emi daz) = (length inc * length emi * length daz)%nat
  /\ forall r c, angleCombinations inc emi daz !! r = Some c -> index c = r.
Proof.
  assert (Hlen : length (angleCombinations inc emi daz)
                 = (length inc * length emi * length daz)%nat).
  { unfold angleCombinations.
    rewrite (flat_map_seq_length _ (length emi * length daz)); [lia|].
    intros i. rewrite (flat_map_seq_length _ (length daz)); [done|].
    intros j. by rewrite length_map, length_seq. }
  split; [done|]. intros r c Hr.
  pose proof (lookup_lt_Some _ _ _ Hr) as Hlt. rewrite Hlen in Hlt.
  set (I := length inc) in *. set (E := length emi) in *. set (D := length daz) in *.
  assert (HD : (0 < D)%nat) by (destruct D; lia).
  assert (HE : (0 < E)%nat) by (destruct E; lia).
  set (i := (r / (E * D))%nat). set (rest := (r mod (E * D))%nat).
  set (j := (rest / D)%nat). set (k := (rest mod D)%nat).
  assert (Hr1 : r = (E * D * i + rest)%nat) by (apply Nat.div_mod_eq).
  assert (Hrest : (rest < E * D)%nat) by (apply Nat.mod_upper_bound; lia).
  assert (Hr2 : rest = (D * j + k)%nat) by (apply Nat.div_mod_eq).
  assert (Hk : (k < D)%nat) by (apply Nat.mod_upper_bound; lia).
  assert (Hj : (j < E)%nat) by (apply Nat.Div0.div_lt_upper_bound; lia).
  assert (Hi : (i < I)%nat) by (apply Nat.Div0.div_lt_upper_bound; lia).
  assert (Hpos : r = (i * E * D + j * D + k)%nat) by lia.
  pose proof (angleCombinations_lookup inc emi daz i j k Hi Hj Hk) as Hget.
  fold E D in Hget. rewrite <- Hpos in Hget. rewrite Hr in Hget.
  inversion Hget; subst c. cbn [index]. lia.
Qed.

Lemma angleCombinations_row_major_witness :
  angleCombinations exampleAngles exampleAngles exampleAzimuths !! 115%nat
  = Some {| incidence := 60%Q; emission := 30%Q; azimuth := 210%Q; index := 115 |}
  /\ index {| incidence := 60%Q; emission := 30%Q; azimuth := 210%Q; index := 115 |}
     = 115%nat.
Proof.
  assert (H : angleCombinations exampleAngles exampleAngles exampleAzimuths !! 115%nat
              = Some {| incidence := 60%Q; emission := 30%Q; azimuth := 210%Q;
                        index := 115 |}) by reflexivity.
  split; [exact H|].
  exact (proj2 (angleCombinations_row_major exampleAngles exampleAngles exampleAzimuths)
           115%nat _ H).
Defined.

Lemma findClosestAngleIndex_lt angleArray targetAngle :
  angleArray <> [] ->
  (findClosestAngleIndex angleArray targetAngle < length angleArray)%nat.
Proof.
  intros Hne. rewrite findClosestAngleIndex_nonempty by done.
  assert (Hpos : (0 < length angleArray)%nat) by (destruct angleArray; [done | cbn; lia]).
  destruct (findIndex (fun angle => ltb (Qabs (angle - targetAngle)%Q) tolerance) angleArray)
    as [exactIndex|] eqn:Hfind.
  - apply findIndex_Some in Hfind as [(a & Ha & _) _]. by eapply lookup_lt_Some.
  - destruct (closestLoop_minimal angleArray targetAngle (length angleArray - 1) 1 0)
      as (Hr & _); [lia|lia| |intros j Hj; lia|done].
    intros j Hj. replace j with 0%nat by lia. apply Qle_refl.
Qed.

Lemma findClosestAngleIndex_first_match (angles : list number) (target : number)
    (i : nat) (a : number) :
  angles !! i = Some a ->
  (Qabs (a - target) < tolerance)%Q ->
  (forall j b, (j < i)%nat -> angles !! j = Some b ->
               (tolerance <= Qabs (b - target))%Q) ->
  findClosestAngleIndex angles target = i.
Proof.
  intros Hi Hnear Hsep.
  assert (Hne : angles <> []) by (intros ->; by rewrite lookup_nil in Hi).
  rewrite findClosestAngleIndex_nonempty by done.
  apply ltb_lt in Hnear.
  destruct (findIndex (fun angle => ltb (Qabs (angle - target)%Q) tolerance) angles)
    as [exactIndex|] eqn:Hfind.
  - apply findIndex_Some in Hfind as [(b & Hb & Hpb) Hbefore]. cbn beta in *.
    destruct (Nat.lt_trichotomy exactIndex i) as [Hlt|[->|Hgt]]; [|done|].
    + apply ltb_lt in Hpb. specialize (Hsep exactIndex b Hlt Hb).
      exfalso. exact (Qlt_not_le _ _ Hpb Hsep).
    + specialize (Hbefore i a Hgt Hi). cbn beta in Hbefore. congruence.
  - pose proof (findIndex_None _ _ Hfind i a Hi) as Hno. cbn beta in Hno. congruence.
Qed.

Lemma Qabs_self_lt_tolerance (a : number) : (Qabs (a - a) < tolerance)%Q.
Proof. apply Qabs_Qlt_condition. unfold tolerance. split; lra. Qed.

(** Matching an angle of the axis finds its own position, provided no
    earlier entry of the axis lies within the tolerance 1e-6 of it. *)
Theorem findClosestAngleIndex_exact (angles : list number) (i : nat) (a : number) :
  angles !! i = Some a ->
  (forall j b, (j < i)%nat -> angles !! j = Some b ->
               (tolerance <= Qabs (b - a))%Q) ->
  findClosestAngleIndex angles a = i.
Proof.
  intros Hi Hsep.
  apply (findClosestAngleIndex_first_match angles a i a); [done| |done].
  apply Qabs_self_lt_tolerance.
Qed.

Lemma findClosestAngleIndex_exact_witness :
  findClosestAngleIndex exampleAzimuths 210%Q = 7%nat.
Proof.
  apply findClosestAngleIndex_exact; [reflexivity|].
  intros j b Hj Hb.
  do 7 (destruct j as [|j]; [inversion Hb; subst b; vm_compute; discriminate|]).
  lia.
Defined.

(** When the three axes are present and not empty the computed row is less
    than len(inc) * len(emi) * len(daz), so a case table with that many rows
    always holds an entry at the computed row. *)
Theorem angleIndex_in_range (data : SpectralData)
    (incAngles emiAngles dazAngles : list number)
    (incidenceAngle emissionAngle azimuthAngle : number) :
  inc data = Some incAngles -> emi data = Some emiAngles -> daz data = Some dazAngles ->
  incAngles <> [] -> emiAngles <> [] -> dazAngles <> [] ->
  let row := angleIndex data incidenceAngle emissionAngle azimuthAngle in
  (row < length incAngles * length emiAngles * length dazAngles)%nat
  /\ forall rows : list (option (list number)),
       length rows = (length incAngles * length emiAngles * length dazAngles)%nat ->
       is_Some (rows !! row).
Proof.
  intros Hi He Hd Hine Hene Hdne. cbn zeta.
  pose proof (findClosestAngleIndex_lt incAngles incidenceAngle Hine) as H1.
  pose proof (findClosestAngleIndex_lt emiAngles emissionAngle Hene) as H2.
  pose proof (findClosestAngleIndex_lt dazAngles azimuthAngle Hdne) as H3.
  assert (Hrow : (angleIndex data incidenceAngle emissionAngle azimuthAngle
                  < length incAngles * length emiAngles * length dazAngles)%nat).
  { unfold angleIndex. rewrite Hi, He, Hd. cbn [indexIn lengthOr1].
    set (a := findClosestAngleIndex incAngles incidenceAngle) in *.
    set (b := findClosestAngleIndex emiAngles emissionAngle) in *.
    set (c := findClosestAngleIndex dazAngles azimuthAngle) in *.
    assert (Hbc : (b * length dazAngles + c < length emiAngles * length dazAngles)%nat)
      by nia.
    assert (Ha : ((a + 1) * (length emiAngles * length dazAngles)
                  <= length incAngles * (length emiAngles * length dazAngles))%nat)
      by (apply Nat.mul_le_mono_r; lia).
    lia. }
  split; [done|]. intros rows Hrows. apply lookup_lt_is_Some. lia.
Qed.

Lemma angleIndex_in_range_witness :
  (angleIndex tinyLibrary 0%Q 0%Q 30%Q < 1 * 1 * 2)%nat.
Proof.
  apply (angleIndex_in_range tinyLibrary [0%Q] [0%Q] [0%Q; 30%Q]); done.
Defined.

(** The combinations and the row computation agree: on axes whose entries
    are at least 1e-6 apart, asking createSpectralPlotData's row computation
    for the three angles of any combination built by processSpectralData
    gives that combination's index. *)
Theorem angleIndex_of_combination (data : SpectralData) (processed : ProcessedData)
    (incAngles emiAngles dazAngles : list number) (c : AngleCombination) :
  inc data = Some incAngles -> emi data = Some emiAngles -> daz data = Some dazAngles ->
  separated incAngles -> separated emiAngles -> separated dazAngles ->
  processSpectralData (Some data) = Some processed ->
  c ∈ processed_angleCombinations processed ->
  angleIndex (processed_library processed) (incidence c) (emission c) (azimuth c)
  = index c.
Proof.
  intros Hi He Hd Si Se Sd Hp Hc. unfold processSpectralData in Hp.
  rewrite Hi, He, Hd in Hp. inversion Hp; subst processed. clear Hp.
  cbn [processed_library processed_angleCombinations] in *.
  apply list_elem_of_In, angleCombinations_index in Hc
    as (i & j & k & Hil & Hjl & Hkl & Hidx & Hci & Hcj & Hck).
  unfold angleIndex. rewrite Hi, He, Hd. cbn [indexIn lengthOr1].
  rewrite (findClosestAngleIndex_first_match incAngles _ i (incidence c) Hci)
    by (apply Qabs_self_lt_tolerance || (intros j' b Hj' Hb; by apply (Si i j'))).
  rewrite (findClosestAngleIndex_first_match emiAngles _ j (emission c) Hcj)
    by (apply Qabs_self_lt_tolerance || (intros j' b Hj' Hb; by apply (Se j j'))).
  rewrite (findClosestAngleIndex_first_match dazAngles _ k (azimuth c) Hck)
    by (apply Qabs_self_lt_tolerance || (intros j' b Hj' Hb; by apply (Sd k j'))).
  lia.
Qed.

Lemma separated_singleton (a : number) : separated [a].
Proof.
  intros i j x y Hji Hj Hi. apply lookup_lt_Some in Hi. cbn in Hi. lia.
Qed.

Lemma angleIndex_of_combination_witness :
  angleIndex tinyLibrary 0%Q 0%Q 30%Q = 1%nat.
Proof.
  apply (angleIndex_of_combination tinyLibrary
           {| processed_library := tinyLibrary;
              processed_angleCombinations := angleCombinations [0%Q] [0%Q] [0%Q; 30%Q] |}
           [0%Q] [0%Q] [0%Q; 30%Q]
           {| incidence := 0%Q; emission := 0%Q; azimuth := 30%Q; index := 1 |});
    try reflexivity.
  - apply separated_singleton.
  - apply separated_singleton.
  - intros i j a b Hji Hj Hi.
    destruct i as [|[|i]]; [lia| |by apply lookup_lt_Some in Hi; cbn in Hi; lia].
    destruct j as [|j]; [|lia]. inversion Hj; inversion Hi; subst.
    vm_compute. discriminate.
  - apply list_elem_of_lookup. exists 1%nat. reflexivity.
Defined.



End DataProcessingExtra.

(** ** Marker: ignored clicks, replacement and re-projection *)

Module ClickableImageExtra.
Import ClickableImage ClickableImageProofs.






Lemma Math_round_inject_Z z : Math_round (inject_Z z) = z.
Proof.
  destruct (Math_round_nearest (inject_Z z)) as [H1 H2].
  set (r := Math_round (inject_Z z)) in *.
  assert (Hlo : z - 1 < r).
  { rewrite Zlt_Qlt. unfold Z.sub. rewrite inject_Z_plus, inject_Z_opp.
    change (inject_Z 1) with 1%Q. lra. }
  assert (Hhi : r < z + 1).
  { rewrite Zlt_Qlt, inject_Z_plus. change (inject_Z 1) with 1%Q. lra. }
  lia.
Qed.

Lemma inject_Z_pos z : 0 < z -> (0 < inject_Z z)%Q.
Proof. intros H. change 0%Q with (inject_Z 0). by rewrite <- Zlt_Qlt. Qed.

(** The native coordinate is the durable one: the marker that
    updateImageSize derives from native coordinates (x, y) keeps them, and
    mapping its display position back with the click formula gives (x, y)
    again, whatever the display size. *)
Theorem updateImageSize_roundtrip
    (img : ImageElement) (x y : Z) (position : option Marker)
    (clickPosition : option Marker) :
  0 < naturalWidth img -> 0 < naturalHeight img ->
  0 < offsetWidth img -> 0 < offsetHeight img ->
  exists m,
    updateImageSize (Some img)
      (Some {| ip_x := Some x; ip_y := Some y; ip_position := position |}) clickPosition
    = Some m
    /\ naturalX m = Some x /\ naturalY m = Some y
    /\ toNatural (displayX m) (naturalWidth img) (offsetWidth img) = Some x
    /\ toNatural (displayY m) (naturalHeight img) (offsetHeight img) = Some y.
Proof.
  intros Hnw Hnh Hw Hh. unfold updateImageSize.
  rewrite !bool_decide_eq_true_2 by lia. cbn [andb].
  eexists. split; [reflexivity|]. cbn [naturalX naturalY displayX displayY].
  pose proof (inject_Z_pos _ Hnw). pose proof (inject_Z_pos _ Hnh).
  pose proof (inject_Z_pos _ Hw). pose proof (inject_Z_pos _ Hh).
  split_and!; [done|done| |].
  - unfold toNatural. rewrite decide_False by lia. f_equal.
    rewrite <- (Math_round_inject_Z x) at 2. unfold Math_round.
    apply Qfloor_comp. apply Qplus_comp; [|reflexivity]. field. split; lra.
  - unfold toNatural. rewrite decide_False by lia. f_equal.
    rewrite <- (Math_round_inject_Z y) at 2. unfold Math_round.
    apply Qfloor_comp. apply Qplus_comp; [|reflexivity]. field. split; lra.
Qed.

Lemma updateImageSize_roundtrip_witness :
  exists m,
    updateImageSize (Some exampleImage)
      (Some {| ip_x := Some 170; ip_y := Some 85; ip_position := None |}) None = Some m
    /\ toNatural (displayX m) 681 400 = Some 170.
Proof.
  destruct (updateImageSize_roundtrip exampleImage 170 85 None None)
    as (m & Hm & _ & _ & Hx & _); [reflexivity..|].
  exists m. split; [exact Hm | exact Hx].
Defined.




End ClickableImageExtra.

(** ** File names of a phase angle *)

Module ImageLoaderExtra.
Import ImageLoader.

Lemma formatPhaseAngle_rounds (phaseAngle : number) :
  formatPhaseAngle phaseAngle = formatPhaseAngle (inject_Z (Math_round phaseAngle)).
Proof.
  unfold formatPhaseAngle. by rewrite ClickableImageExtra.Math_round_inject_Z.
Qed.

Lemma formatPhaseAngle_table :
  forallb (fun k => String.eqb (formatPhaseAngle (inject_Z (Z.of_nat k)))
                               (threeDigits (Z.of_nat k)))
          (seq 0 1000) = true.
Proof. by vm_compute. Qed.

Lemma formatPhaseAngle_of_integer (n : Z) :
  0 <= n < 1000 -> formatPhaseAngle (inject_Z n) = threeDigits n.
Proof.
  intros Hn. pose proof formatPhaseAngle_table as Htable.
  rewrite forallb_forall in Htable.
  specialize (Htable (Z.to_nat n)). rewrite Z2Nat.id in Htable by lia.
  apply String.eqb_eq, Htable, in_seq. lia.
Qed.

(** A phase angle that rounds to an integer from 0 to 999 is written with
    exactly three decimal digits, zero-padded on the left. *)
Theorem formatPhaseAngle_three_digits (phaseAngle : number) :
  0 <= Math_round phaseAngle < 1000 ->
  formatPhaseAngle phaseAngle = threeDigits (Math_round phaseAngle)
  /\ String.length (formatPhaseAngle phaseAngle) = 3%nat.
Proof.
  intros Hn. rewrite formatPhaseAngle_rounds, formatPhaseAngle_of_integer by done.
  done.
Qed.

Lemma formatPhaseAngle_three_digits_witness :
  formatPhaseAngle (9 # 2)%Q = "005".
Proof.
  rewrite (proj1 (formatPhaseAngle_three_digits (9 # 2)%Q
                    ltac:(vm_compute; split; [discriminate | reflexivity]))).
  reflexivity.
Defined.

Lemma digit_inj d d' : 0 <= d <= 9 -> 0 <= d' <= 9 -> digit d = digit d' -> d = d'.
Proof.
  intros Hd Hd' H. unfold digit in H.
  apply (f_equal Ascii.N_of_ascii) in H.
  rewrite !Ascii.N_ascii_embedding in H by lia. lia.
Qed.

Lemma threeDigits_inj n n' :
  0 <= n < 1000 -> 0 <= n' < 1000 -> threeDigits n = threeDigits n' -> n = n'.
Proof.
  intros Hn Hn' H. unfold threeDigits in H.
  injection H as H2 H1 H0.
  assert (Hh : forall m, 0 <= m < 1000 -> 0 <= m / 100 <= 9).
  { intros m Hm. split; [apply Z.div_pos; lia|].
    assert (m / 100 < 10) by (apply Z.div_lt_upper_bound; lia). lia. }
  assert (Hm10 : forall m, 0 <= m mod 10 <= 9)
    by (intros m; pose proof (Z.mod_pos_bound m 10); lia).
  apply digit_inj in H2; [|by apply Hh..].
  apply digit_inj in H1; [|by apply Hm10..].
  apply digit_inj in H0; [|by apply Hm10..].
  pose proof (Z.div_mod n 10). pose proof (Z.div_mod n' 10).
  pose proof (Z.div_mod (n / 10) 10). pose proof (Z.div_mod (n' / 10) 10).
  rewrite !Z.div_div in * by lia. change (10 * 10) with 100 in *. lia.
Qed.

(** Phase angles that round to different integers from 0 to 999 have
    different image URLs (for one composite type) and different geo cube
    URLs: no two such angles share a file. *)
Theorem phase_urls_distinct (phaseAngle phaseAngle' : number) (compositeType : string) :
  0 <= Math_round phaseAngle < 1000 ->
  0 <= Math_round phaseAngle' < 1000 ->
  (getImageUrl phaseAngle compositeType = getImageUrl phaseAngle' compositeType
   \/ GeoCubeFile.geoCubeUrl phaseAngle = GeoCubeFile.geoCubeUrl phaseAngle') ->
  Math_round phaseAngle = Math_round phaseAngle'.
Proof.
  intros Hn Hn' H. apply threeDigits_inj; [done|done|].
  unfold getImageUrl, GeoCubeFile.geoCubeUrl in H.
  rewrite (formatPhaseAngle_rounds phaseAngle), (formatPhaseAngle_rounds phaseAngle'),
    !formatPhaseAngle_of_integer in H by done.
  cbn zeta in H.
  unfold threeDigits in *. cbn [append] in H.
  destruct H as [H|H]; injection H as H2 H1 H0; by rewrite H2, H1, H0.
Qed.

Lemma phase_urls_distinct_witness :
  getImageUrl 5%Q "5_2_1.3" = getImageUrl (21 # 4)%Q "5_2_1.3"
  /\ Math_round 5%Q = Math_round (21 # 4)%Q.
Proof.
  assert (H : getImageUrl 5%Q "5_2_1.3" = getImageUrl (21 # 4)%Q "5_2_1.3")
    by reflexivity.
  split; [exact H|].
  apply (phase_urls_distinct 5%Q (21 # 4)%Q "5_2_1.3");
    [vm_compute; split; [discriminate | reflexivity]
    | vm_compute; split; [discriminate | reflexivity] | by left].
Defined.

(** The available phase angles are the 44 multiples of 5 from 0 to 215, in
    increasing order: entry k is 5 * k. *)
Theorem getAvailablePhaseAngles_multiples :
  length getAvailablePhaseAngles = 44%nat
  /\ forall k a, getAvailablePhaseAngles !! k = Some a -> a = 5 * Z.of_nat k
  /\ 0 <= a <= 215.
Proof.
  split; [reflexivity|]. intros k a Hk.
  assert (Hlt : (k < 44)%nat) by (by apply lookup_lt_Some in Hk).
  do 44 (destruct k as [|k]; [inversion Hk; subst a; lia|]). lia.
Qed.

End ImageLoaderExtra.

(** ** Sampling of large arrays *)

Module LargeDataHandlerExtra.
Import LargeDataHandler.

Lemma ceil_succ a s :
  0 < s -> 0 <= a ->
  (a + 1 + s - 1) / s - (a + s - 1) / s = if a mod s =? 0 then 1 else 0.
Proof.
  intros Hs Ha. pose proof (Z.div_mod a s ltac:(lia)) as Hdm.
  pose proof (Z.mod_pos_bound a s Hs) as Hr.
  set (q := a / s) in *. set (r := a mod s) in *.
  destruct (Z.eqb_spec r 0) as [Hr0|Hr0].
  - rewrite <- (Z.div_unique (a + 1 + s - 1) s (q + 1) 0) by lia.
    rewrite <- (Z.div_unique (a + s - 1) s q (s - 1)) by lia. lia.
  - rewrite <- (Z.div_unique (a + 1 + s - 1) s (q + 1) r) by lia.
    rewrite <- (Z.div_unique (a + s - 1) s (q + 1) (r - 1)) by lia. lia.
Qed.

Section Filter.
Context {A : Type} (step : Z).
Hypothesis step_pos : 0 < step.

Local Abbreviation keep :=
  (fun '(index, a) => if Z.of_nat index mod step =? 0 then Some a else None
     : option A).

Lemma kept_length (value : list A) : forall off : nat,
  Z.of_nat (length (omap keep (imap (fun index a => ((off + index)%nat, a)) value)))
  = (Z.of_nat (off + length value) + step - 1) / step
    - (Z.of_nat off + step - 1) / step.
Proof.
  induction value as [|a value IH]; intros off.
  - cbn. rewrite Nat.add_0_r. lia.
  - rewrite imap_cons. cbn [omap list_omap].
    rewrite (imap_ext _ (fun index a => ((S off + index)%nat, a)))
      by (intros i x _; cbn; f_equal; lia).
    specialize (IH (S off)). rewrite Nat.add_0_r.
    pose proof (ceil_succ (Z.of_nat off) step step_pos ltac:(lia)) as Hc.
    replace (Z.of_nat (off + length (a :: value)))
      with (Z.of_nat (S off + length value)) by (cbn [length]; lia).
    replace (Z.of_nat (S off)) with (Z.of_nat off + 1) in IH by lia.
    destruct (Z.of_nat off mod step =? 0); cbn [length]; lia.
Qed.
End Filter.

(** The array branch of sampleLargeData keeps its budget: for a positive
    maxPoints the sampled array never has more than maxPoints elements, an
    array that already fits is returned unchanged, and the first element is
    always kept. *)
Theorem sampleArray_budget {A : Type} (value : list A) (maxPoints : Z) :
  0 < maxPoints ->
  Z.of_nat (length (sampleArray value maxPoints)) <= maxPoints
  /\ (Z.of_nat (length value) <= maxPoints -> sampleArray value maxPoints = value)
  /\ head (sampleArray value maxPoints) = head value.
Proof.
  intros Hmp. unfold sampleArray.
  destruct (Z.gtb_spec (Z.of_nat (length value)) maxPoints) as [Hgt|Hle];
    [|split_and!; [lia|done|done]].
  set (step := - (- Z.of_nat (length value) / maxPoints)).
  assert (Hstep : Z.of_nat (length value) <= step * maxPoints).
  { pose proof (Z.mul_div_le (- Z.of_nat (length value)) maxPoints Hmp). unfold step. lia. }
  assert (Hpos : 0 < step) by nia.
  split_and!.
  - pose proof (kept_length step Hpos value 0) as Hlen.
    rewrite (imap_ext _ (fun index a => (index, a))) in Hlen by done.
    cbn [Nat.add] in Hlen. rewrite Hlen.
    rewrite (Z.div_small (Z.of_nat 0 + step - 1)) by lia.
    assert ((Z.of_nat (length value) + step - 1) / step < maxPoints + 1); [|lia].
    apply Z.div_lt_upper_bound; [done|]. nia.
  - lia.
  - destruct value as [|a value]; [done|].
    rewrite imap_cons. cbn [omap list_omap]. by rewrite Z.mod_0_l by lia.
Qed.

Lemma sampleArray_budget_witness :
  Z.of_nat (length (sampleArray (seq 0 2500) 1000)) <= 1000.
Proof. apply sampleArray_budget. lia. Defined.

End LargeDataHandlerExtra.

(** ** Further witnesses and small compositions *)

Module MoreExtra.
Import DataLoader DataProcessing.

Lemma sampleData_aligned_witness :
  exists w' rows' values',
    wavelength (sampleData {| wavelength := Some (positions 12);
                              standard := Some [Some (positions 12)];
                              no_ch4 := None; no_haze := None;
                              inc := None; emi := None; daz := None |} 4) = Some w'
    /\ standard (sampleData {| wavelength := Some (positions 12);
                               standard := Some [Some (positions 12)];
                               no_ch4 := None; no_haze := None;
                               inc := None; emi := None; daz := None |} 4) = Some rows'
    /\ rows' !! 0%nat = Some (Some values')
    /\ length values' = length w'.
Proof.
  destruct (DataLoaderProofs.sampleData_aligned
              {| wavelength := Some (positions 12);
                 standard := Some [Some (positions 12)];
                 no_ch4 := None; no_haze := None;
                 inc := None; emi := None; daz := None |} (positions 12) 4)
    as (w' & Hw' & _ & Hrows); [reflexivity | cbn; lia |].
  destruct (Hrows standard [Some (positions 12)] 0%nat (positions 12))
    as (rows' & values' & Ht & Hj & Hlen & _);
    [set_solver | reflexivity | reflexivity | reflexivity |].
  by exists w', rows', values'.
Defined.

Lemma uniqueValues_distinct_witness :
  exists b, b ∈ uniqueValues (Some [30; 0; 30]%Q) /\ (30 == b)%Q.
Proof.
  apply (proj1 (proj2 (proj2 (DataLoaderExtra.uniqueValues_distinct (Some [30; 0; 30]%Q))))).
  cbn. set_solver.
Defined.

Lemma extractGeoValues_all_or_nothing_witness :
  GeoCubeLoader.extractGeoValues (Throws (Error "offline")) 3 4 !! "x" = Some (VInt 3).
Proof.
  exact (proj1 (GeoCubeLoaderExtra.extractGeoValues_all_or_nothing
                  (Throws (Error "offline")) 3 4)).
Defined.

Lemma getAvailablePhaseAngles_multiples_witness :
  ImageLoader.getAvailablePhaseAngles !! 43%nat = Some 215
  /\ 215 = 5 * Z.of_nat 43.
Proof.
  assert (H : ImageLoader.getAvailablePhaseAngles !! 43%nat = Some 215) by reflexivity.
  split; [exact H|].
  exact (proj1 (proj2 ImageLoaderExtra.getAvailablePhaseAngles_multiples 43%nat 215 H)).
Defined.

(** The angles offered for a sampled library are its axes themselves:
    sampling already reduced them to distinct values, so getAvailableAngles
    changes nothing. *)
Theorem getAvailableAngles_of_sampled (data : SpectralData) (w : list number)
    (maxPoints : Z) :
  wavelength data = Some w ->
  let sampled := sampleData data maxPoints in
  Some (available_incidence (getAvailableAngles (Some sampled))) = inc sampled
  /\ Some (available_emission (getAvailableAngles (Some sampled))) = emi sampled
  /\ Some (available_azimuth (getAvailableAngles (Some sampled))) = daz sampled.
Proof.
  intros Hw. cbn zeta. unfold sampleData. rewrite Hw.
  cbn [getAvailableAngles inc emi daz available_incidence available_emission
       available_azimuth].
  by rewrite !DataLoaderExtra.uniqueValues_idempotent.
Qed.

Lemma getAvailableAngles_of_sampled_witness :
  Some (available_azimuth (getAvailableAngles (Some (sampleData tinyLibrary 100))))
  = daz (sampleData tinyLibrary 100).
Proof.
  exact (proj2 (proj2 (getAvailableAngles_of_sampled tinyLibrary [1; 2]%Q 100 eq_refl))).
Defined.

(** loadPds4Image never throws: it yields the image URL of the phase angle
    exactly when the fetch of that URL answers with an ok status, and null
    when the status is not ok or the fetch rejects. *)
Theorem loadPds4Image_ok
    (fetch : string -> outcome Response) (phaseAngle : number)
    (compositeType url : string) :
  ImageLoader.loadPds4Image fetch phaseAngle compositeType = Some url <->
  url = ImageLoader.getImageUrl phaseAngle compositeType
  /\ exists response, fetch url = Returns response /\ ok response = true.
Proof.
  unfold ImageLoader.loadPds4Image. cbn zeta.
  destruct (fetch (ImageLoader.getImageUrl phaseAngle compositeType))
    as [response|e] eqn:Hfetch; cbn [bind tryCatch].
  - destruct (ok response) eqn:Hok; split.
    + intros [= <-]. split; [done|]. by exists response.
    + by intros [-> _].
    + done.
    + intros [-> (r & Hr & Hrok)]. congruence.
  - split; [done|]. intros [-> (r & Hr & _)]. congruence.
Qed.

End MoreExtra.
